(** * The sparse Jonker-Volgenant kernel of [cellprofiler/cpmath/_lapjv.pyx]

    A shallow embedding of the four routines of the file
    ([reduction_transfer], [augmenting_row_reduction], [augment] and the
    helper [bsearch]) together with the properties its specification
    states about them.

    Conventions of the embedding.
    - A C [int] is a [Z].  The only arithmetic of the file that can leave
      the 32-bit range on arrays that fit in memory is the midpoint
      [low + high] of [bsearch]; its wrap-around is written out
      ([wrap_int]).  Every other integer operation increments or
      decrements an index that has just been used to address an array.
    - A numpy array is a [list]; an access outside the array, the use of a
      local variable that was never assigned, and a Python exception all
      end the run in [Fault].  The compiled code does not stop at the read
      of a never-assigned local: [augmenting_row_reduction_with] is the
      routine entered with given contents of its locals [j1] and [j2].
    - A [double] is an element of an arithmetic [arith] given by its
      constants, operations and comparisons.  Two arithmetics are
      provided: [exact] (integers with the two infinities and NaN, no
      rounding; IEEE addition and subtraction agree with it on integers
      below 2^53) and [ieee] (the binary64 numbers of the kernel).
    - [while] loops take a fuel; a run that exhausts it ends in
      [Timeout]. *)

From Stdlib Require Import ZArith List Bool Lia PrimFloat.
Import ListNotations.
Local Open Scope Z_scope.

Set Implicit Arguments.

(** ** Outcomes of a run *)

Inductive outcome (A : Type) : Type :=
| Done (a : A)
| Fault
| Timeout.

Arguments Done {A} a.
Arguments Fault {A}.
Arguments Timeout {A}.

Definition bind {A B : Type} (m : outcome A) (k : A -> outcome B) : outcome B :=
  match m with
  | Done a => k a
  | Fault => Fault
  | Timeout => Timeout
  end.

Declare Scope run_scope.
Delimit Scope run_scope with run.
Notation "x <- m ;; k" := (bind m (fun x => k))
  (at level 61, m at next level, right associativity) : run_scope.
Notation "' p <- m ;; k" := (bind m (fun x => match x with p => k end))
  (at level 61, p pattern, m at next level, right associativity) : run_scope.
Local Open Scope run_scope.

(** A local variable of the C code that may not have been assigned yet. *)
Definition use {A : Type} (o : option A) : outcome A :=
  match o with
  | Some a => Done a
  | None => Fault
  end.

(** ** Arrays *)

Fixpoint upd {A : Type} (a : list A) (k : nat) (x : A) : list A :=
  match a, k with
  | [], _ => []
  | _ :: t, O => x :: t
  | h :: t, S k' => h :: upd t k' x
  end.

Definition len {A : Type} (a : list A) : Z := Z.of_nat (length a).

(** [a[i]] *)
Definition rd {A : Type} (a : list A) (i : Z) : outcome A :=
  if i <? 0 then Fault
  else match nth_error a (Z.to_nat i) with
       | Some x => Done x
       | None => Fault
       end.

(** [a[i] = x] *)
Definition wr {A : Type} (a : list A) (i : Z) (x : A) : outcome (list A) :=
  if (0 <=? i) && (i <? len a) then Done (upd a (Z.to_nat i) x) else Fault.

(** ** Loops *)

Inductive ctl (S : Type) : Type :=
| Next (s : S)
| Break (s : S).

Arguments Next {S} s.
Arguments Break {S} s.

Definition ctl_state {S : Type} (r : ctl S) : S :=
  match r with Next s => s | Break s => s end.

(** [for j in range(lo, lo + cnt)] with a body that may [break]. *)
Fixpoint for_from {S : Type} (cnt : nat) (j : Z)
         (body : Z -> S -> outcome (ctl S)) (s : S) : outcome (ctl S) :=
  match cnt with
  | O => Done (Next s)
  | Datatypes.S c =>
      r <- body j s ;;
      match r with
      | Next s' => for_from c (j + 1) body s'
      | Break s' => Done (Break s')
      end
  end.

Definition for_break {S : Type} (lo hi : Z)
           (body : Z -> S -> outcome (ctl S)) (s : S) : outcome (ctl S) :=
  for_from (Z.to_nat (hi - lo)) lo body s.

(** [for j in range(lo, hi)] with a body that runs to its end (or
    [continue]s). *)
Definition for_range {S : Type} (lo hi : Z)
           (body : Z -> S -> outcome S) (s : S) : outcome S :=
  r <- for_break lo hi (fun j s => s' <- body j s ;; Done (Next s')) s ;;
  Done (ctl_state r).

(** [for i in a] over the elements of an array that the loop does not
    write. *)
Fixpoint for_each {A S : Type} (a : list A)
         (body : A -> S -> outcome S) (s : S) : outcome S :=
  match a with
  | [] => Done s
  | i :: t => s' <- body i s ;; for_each t body s'
  end.

(** [while True] (the body decides when to leave). *)
Fixpoint while {S : Type} (fuel : nat)
         (body : S -> outcome (ctl S)) (s : S) : outcome S :=
  match fuel with
  | O => Timeout
  | Datatypes.S f =>
      r <- body s ;;
      match r with
      | Next s' => while f body s'
      | Break s' => Done s'
      end
  end.

(** ** Machine integers *)

Definition wrap_int (z : Z) : Z := (z + 2 ^ 31) mod 2 ^ 32 - 2 ^ 31.

(** ** [bsearch] (lines 464-476)

    [ptr] is the array [a] seen from offset [off].  A search that leaves
    the loop without finding [valu] reaches the end of the function,
    where Cython returns its default value 0. *)
Fixpoint bsearch_loop (fuel : nat) (a : list Z) (off valu low high : Z)
  : outcome Z :=
  match fuel with
  | O => Timeout
  | Datatypes.S f =>
      if low <=? high then
        let mid := wrap_int (low + high) / 2 in
        p <- rd a (off + mid) ;;
        if valu =? p then Done mid
        else if valu >? p then bsearch_loop f a off valu (mid + 1) high
        else bsearch_loop f a off valu low (mid - 1)
      else Done 0
  end.

Definition bsearch (fuel : nat) (a : list Z) (off count valu : Z) : outcome Z :=
  bsearch_loop fuel a off valu 0 (count - 1).

(** ** Arithmetic of [double] *)

Record arith : Type := {
  num :> Type;
  inf : num;
  zero : num;
  add : num -> num -> num;
  sub : num -> num -> num;
  ltb : num -> num -> bool;
  leb : num -> num -> bool;
  eqb : num -> num -> bool
}.

(** Integers, the infinities and NaN, with the IEEE rules for the special
    values and no rounding. *)
Inductive ext : Type :=
| Fin (z : Z)
| PInf
| NInf
| NaN.

Definition ext_opp (a : ext) : ext :=
  match a with
  | Fin z => Fin (- z)
  | PInf => NInf
  | NInf => PInf
  | NaN => NaN
  end.

Definition ext_add (a b : ext) : ext :=
  match a, b with
  | NaN, _ | _, NaN => NaN
  | Fin x, Fin y => Fin (x + y)
  | PInf, NInf | NInf, PInf => NaN
  | PInf, _ | _, PInf => PInf
  | NInf, _ | _, NInf => NInf
  end.

Definition ext_sub (a b : ext) : ext := ext_add a (ext_opp b).

Definition ext_ltb (a b : ext) : bool :=
  match a, b with
  | NaN, _ | _, NaN => false
  | Fin x, Fin y => x <? y
  | _, NInf => false
  | NInf, _ => true
  | PInf, _ => false
  | _, PInf => true
  end.

Definition ext_eqb (a b : ext) : bool :=
  match a, b with
  | Fin x, Fin y => x =? y
  | PInf, PInf | NInf, NInf => true
  | _, _ => false
  end.

Definition ext_leb (a b : ext) : bool := ext_ltb a b || ext_eqb a b.

Definition exact : arith :=
  {| num := ext; inf := PInf; zero := Fin 0;
     add := ext_add; sub := ext_sub;
     ltb := ext_ltb; leb := ext_leb; eqb := ext_eqb |}.

Definition ieee : arith :=
  {| num := float; inf := PrimFloat.infinity; zero := PrimFloat.zero;
     add := PrimFloat.add; sub := PrimFloat.sub;
     ltb := PrimFloat.ltb; leb := PrimFloat.leb; eqb := PrimFloat.eqb |}.

Canonical Structure exact.
Canonical Structure ieee.

(** ** The kernel *)

Section Kernel.

Variable F : arith.

Local Notation "a -. b" := (sub F a b) (at level 50, left associativity).
Local Notation "a +. b" := (add F a b) (at level 50, left associativity).
Local Notation "a <. b" := (ltb F a b) (at level 70, no associativity).
Local Notation "a <=. b" := (leb F a b) (at level 70, no associativity).
Local Notation "a ==. b" := (eqb F a b) (at level 70, no associativity).

(** The sparse cost graph: for row [i] the feasible columns are
    [jj[idx[i] .. idx[i] + count[i])] and their costs the same slice of
    [c].  No routine writes these arrays. *)
Record graph : Type := {
  jj : list Z;
  idx : list Z;
  count : list Z;
  c : list F
}.

(** The arrays the routines update in place. *)
Record mem : Type := {
  x : list Z;
  y : list Z;
  u : list F;
  v : list F
}.

Definition set_x (m : mem) (a : list Z) : mem :=
  {| x := a; y := y m; u := u m; v := v m |}.
Definition set_y (m : mem) (a : list Z) : mem :=
  {| x := x m; y := a; u := u m; v := v m |}.
Definition set_u (m : mem) (a : list F) : mem :=
  {| x := x m; y := y m; u := a; v := v m |}.
Definition set_v (m : mem) (a : list F) : mem :=
  {| x := x m; y := y m; u := u m; v := a |}.

(** *** [reduction_transfer] (lines 51-125)

    The inner loop reads the column of entry [j_idx] through [p_j], the
    base of the column array, while the cost is read through
    [p_c = c_base + p_idx[i]].  The local [j_at_min] is only written and
    is left out. *)
Definition rt_scan (g : graph) (m : mem) (j1 off j_idx : Z) (min_u : F)
  : outcome F :=
  j_temp <- rd (jj g) j_idx ;;
  if negb (j_temp =? j1) then
    cv <- rd (c g) (off + j_idx) ;;
    vj <- rd (v m) j_temp ;;
    let u_temp := cv -. vj in
    if u_temp <. min_u then Done u_temp else Done min_u
  else Done min_u.

Definition rt_row (g : graph) (i : Z) (m : mem) : outcome mem :=
  j1 <- rd (x m) i ;;
  j_count <- rd (count g) i ;;
  off <- rd (idx g) i ;;
  min_u <- for_range 0 j_count (rt_scan g m j1 off) (inf F) ;;
  vj1 <- rd (v m) j1 ;;
  ui <- rd (u m) i ;;
  v' <- wr (v m) j1 (vj1 -. (min_u -. ui)) ;;
  u' <- wr (u m) i min_u ;;
  Done (set_u (set_v m v') u').

Definition reduction_transfer (g : graph) (ii : list Z) (m : mem)
  : outcome mem :=
  for_each ii (rt_row g) m.

(** *** [augmenting_row_reduction] (lines 127-243) *)

(** The locals of the scan for the two smallest reduced costs.  [j1] and
    [j2] are declared without a value and keep their contents from one
    row to the next. *)
Record scan2 : Type := {
  sc_u1 : F;
  sc_u2 : F;
  sc_j1 : option Z;
  sc_j2 : option Z
}.

Definition arr_scan (g : graph) (m : mem) (off jjj : Z) (s : scan2)
  : outcome scan2 :=
  j <- rd (jj g) (off + jjj) ;;
  cv <- rd (c g) (off + jjj) ;;
  vj <- rd (v m) j ;;
  let temp := cv -. vj in
  if temp <. sc_u1 s then
    Done {| sc_u1 := temp; sc_u2 := sc_u1 s;
            sc_j1 := Some j; sc_j2 := sc_j1 s |}
  else if temp <. sc_u2 s then
    Done {| sc_u1 := sc_u1 s; sc_u2 := temp;
            sc_j1 := sc_j1 s; sc_j2 := Some j |}
  else Done s.

Record arr_state : Type := {
  st_mem : mem;
  st_ii : list Z;        (* the queue [p_i], rewritten in place *)
  st_free : list Z;      (* [p_free] *)
  st_nfree : Z;
  st_k : Z;
  st_j1 : option Z;
  st_j2 : option Z
}.

(** One pass through the body of [while k < n_i]. *)
Definition arr_row (n : Z) (g : graph) (st : arr_state) : outcome arr_state :=
  let m := st_mem st in
  i <- rd (st_ii st) (st_k st) ;;
  let k := st_k st + 1 in
  n_j <- rd (count g) i ;;
  off <- rd (idx g) i ;;
  s <- for_range 0 n_j (arr_scan g m off)
         {| sc_u1 := inf F; sc_u2 := inf F;
            sc_j1 := st_j1 st; sc_j2 := st_j2 st |} ;;
  let u1 := sc_u1 s in
  let u2 := sc_u2 s in
  (* perform the reduction *)
  j1 <- use (sc_j1 s) ;;
  i1 <- rd (y m) j1 ;;
  '(vv, j1, i1) <-
    (if u1 <. u2 then
       vj1 <- rd (v m) j1 ;;
       vv <- wr (v m) j1 (vj1 -. u2 +. u1) ;;
       Done (vv, j1, i1)
     else if negb (i1 =? n) then
       j2 <- use (sc_j2 s) ;;
       i2 <- rd (y m) j2 ;;
       Done (v m, j2, i2)
     else Done (v m, j1, i1)) ;;
  '(ii, k, free, nfree) <-
    (if negb (i1 =? n) then
       if u1 <. u2 then
         ii <- wr (st_ii st) (k - 1) i1 ;;
         Done (ii, k - 1, st_free st, st_nfree st)
       else
         free <- wr (st_free st) (st_nfree st) i1 ;;
         Done (st_ii st, k, free, st_nfree st + 1)
     else Done (st_ii st, k, st_free st, st_nfree st)) ;;
  xx <- wr (x m) i j1 ;;
  yy <- wr (y m) j1 i ;;
  Done {| st_mem := {| x := xx; y := yy; u := u m; v := vv |};
          st_ii := ii; st_free := free; st_nfree := nfree; st_k := k;
          st_j1 := Some j1; st_j2 := sc_j2 s |}.

Definition arr_body (n : Z) (g : graph) (st : arr_state)
  : outcome (ctl arr_state) :=
  if st_k st <? len (st_ii st) then
    st' <- arr_row n g st ;; Done (Next st')
  else Done (Break st).

(** [np.max(y)]: raises on an empty array. *)
Definition np_max (a : list Z) : outcome Z :=
  match a with
  | [] => Fault
  | h :: t => Done (fold_left Z.max t h)
  end.

Definition zeros (n : Z) : list Z := repeat 0 (Z.to_nat n).

Definition arr_init (ii : list Z) (m : mem) : outcome arr_state :=
  top <- np_max (y m) ;;
  Done {| st_mem := m; st_ii := ii; st_free := zeros (top + 1);
          st_nfree := 0; st_k := 0; st_j1 := None; st_j2 := None |}.

(** Returns the updated arrays, the queue as the run leaves it, and
    [free] resized to [nfree]. *)
Definition augmenting_row_reduction (fuel : nat) (n : Z) (g : graph)
           (ii : list Z) (m : mem) : outcome (mem * list Z * list Z) :=
  st0 <- arr_init ii m ;;
  st <- while fuel (arr_body n g) st0 ;;
  Done (st_mem st, st_ii st, firstn (Z.to_nat (st_nfree st)) (st_free st)).

(** *** [augment] (lines 245-453) *)

(** The arrays and the locals of the search for one free row.  [d],
    [pred], [col] and [done] are allocated once per call and keep their
    contents from one free row to the next. *)
Record aug_state : Type := {
  ag_mem : mem;
  ag_d : list F;
  ag_pred : list Z;
  ag_col : list Z;
  ag_done : list Z;
  ag_low : Z;
  ag_up : Z;
  ag_last : Z;
  ag_umin : F;
  ag_j1 : Z
}.

Definition ag_set_mem (s : aug_state) (m : mem) : aug_state :=
  {| ag_mem := m; ag_d := ag_d s; ag_pred := ag_pred s; ag_col := ag_col s;
     ag_done := ag_done s; ag_low := ag_low s; ag_up := ag_up s;
     ag_last := ag_last s; ag_umin := ag_umin s; ag_j1 := ag_j1 s |}.
Definition ag_set_d (s : aug_state) (a : list F) : aug_state :=
  {| ag_mem := ag_mem s; ag_d := a; ag_pred := ag_pred s; ag_col := ag_col s;
     ag_done := ag_done s; ag_low := ag_low s; ag_up := ag_up s;
     ag_last := ag_last s; ag_umin := ag_umin s; ag_j1 := ag_j1 s |}.
Definition ag_set_pred (s : aug_state) (a : list Z) : aug_state :=
  {| ag_mem := ag_mem s; ag_d := ag_d s; ag_pred := a; ag_col := ag_col s;
     ag_done := ag_done s; ag_low := ag_low s; ag_up := ag_up s;
     ag_last := ag_last s; ag_umin := ag_umin s; ag_j1 := ag_j1 s |}.
Definition ag_set_col (s : aug_state) (a : list Z) : aug_state :=
  {| ag_mem := ag_mem s; ag_d := ag_d s; ag_pred := ag_pred s; ag_col := a;
     ag_done := ag_done s; ag_low := ag_low s; ag_up := ag_up s;
     ag_last := ag_last s; ag_umin := ag_umin s; ag_j1 := ag_j1 s |}.
Definition ag_set_done (s : aug_state) (a : list Z) : aug_state :=
  {| ag_mem := ag_mem s; ag_d := ag_d s; ag_pred := ag_pred s; ag_col := ag_col s;
     ag_done := a; ag_low := ag_low s; ag_up := ag_up s;
     ag_last := ag_last s; ag_umin := ag_umin s; ag_j1 := ag_j1 s |}.
Definition ag_set_low (s : aug_state) (z : Z) : aug_state :=
  {| ag_mem := ag_mem s; ag_d := ag_d s; ag_pred := ag_pred s; ag_col := ag_col s;
     ag_done := ag_done s; ag_low := z; ag_up := ag_up s;
     ag_last := ag_last s; ag_umin := ag_umin s; ag_j1 := ag_j1 s |}.
Definition ag_set_up (s : aug_state) (z : Z) : aug_state :=
  {| ag_mem := ag_mem s; ag_d := ag_d s; ag_pred := ag_pred s; ag_col := ag_col s;
     ag_done := ag_done s; ag_low := ag_low s; ag_up := z;
     ag_last := ag_last s; ag_umin := ag_umin s; ag_j1 := ag_j1 s |}.
Definition ag_set_last (s : aug_state) (z : Z) : aug_state :=
  {| ag_mem := ag_mem s; ag_d := ag_d s; ag_pred := ag_pred s; ag_col := ag_col s;
     ag_done := ag_done s; ag_low := ag_low s; ag_up := ag_up s;
     ag_last := z; ag_umin := ag_umin s; ag_j1 := ag_j1 s |}.
Definition ag_set_umin (s : aug_state) (r : F) : aug_state :=
  {| ag_mem := ag_mem s; ag_d := ag_d s; ag_pred := ag_pred s; ag_col := ag_col s;
     ag_done := ag_done s; ag_low := ag_low s; ag_up := ag_up s;
     ag_last := ag_last s; ag_umin := r; ag_j1 := ag_j1 s |}.
Definition ag_set_j1 (s : aug_state) (z : Z) : aug_state :=
  {| ag_mem := ag_mem s; ag_d := ag_d s; ag_pred := ag_pred s; ag_col := ag_col s;
     ag_done := ag_done s; ag_low := ag_low s; ag_up := ag_up s;
     ag_last := ag_last s; ag_umin := ag_umin s; ag_j1 := z |}.

(** Initialization (lines 361-365): only the feasible columns of the free
    row [i] receive a distance and a predecessor. *)
Definition ag_init (g : graph) (i off jjj : Z) (s : aug_state)
  : outcome aug_state :=
  j <- rd (jj g) (off + jjj) ;;
  cv <- rd (c g) (off + jjj) ;;
  vj <- rd (v (ag_mem s)) j ;;
  d' <- wr (ag_d s) j (cv -. vj) ;;
  col' <- wr (ag_col s) jjj j ;;
  pred' <- wr (ag_pred s) j i ;;
  Done (ag_set_pred (ag_set_col (ag_set_d s d') col') pred').

(** The minimum of [d] among the columns to do (lines 379-389): the loop
    runs over the feasible columns of the free row [i]. *)
Definition ag_min (g : graph) (i off jjj : Z) (s : aug_state)
  : outcome aug_state :=
  j <- rd (jj g) (off + jjj) ;;
  dn <- rd (ag_done s) j ;;
  if dn =? i then Done s
  else
    temp <- rd (ag_d s) j ;;
    if temp <=. ag_umin s then
      let s1 := if temp <. ag_umin s
                then ag_set_umin (ag_set_up s (ag_low s)) temp
                else s in
      col' <- wr (ag_col s1) (ag_up s1) j ;;
      Done (ag_set_up (ag_set_col s1 col') (ag_up s1 + 1))
    else Done s.

(** Lines 391-397: an unassigned column among the new ones ends the
    search. *)
Definition ag_check (n i jjj : Z) (s : aug_state) : outcome (ctl aug_state) :=
  j <- rd (ag_col s) jjj ;;
  yj <- rd (y (ag_mem s)) j ;;
  if yj =? n then Done (Break (ag_set_j1 s j))
  else
    done' <- wr (ag_done s) j i ;;
    Done (Next (ag_set_done s done')).

(** Lines 415-431: the columns of row [i1] seen from the scanned column. *)
Definition ag_relax (n : Z) (g : graph) (i i1 off2 : Z) (u1 : F) (jjj : Z)
           (s : aug_state) : outcome (ctl aug_state) :=
  j <- rd (jj g) (off2 + jjj) ;;
  dn <- rd (ag_done s) j ;;
  if negb (dn =? i) then
    cv <- rd (c g) (off2 + jjj) ;;
    vj <- rd (v (ag_mem s)) j ;;
    let h := cv -. vj -. u1 in
    dj <- rd (ag_d s) j ;;
    if h <. dj then
      pred' <- wr (ag_pred s) j i1 ;;
      let s1 := ag_set_pred s pred' in
      if h ==. ag_umin s1 then
        yj <- rd (y (ag_mem s1)) j ;;
        if yj =? n then Done (Break (ag_set_j1 s1 j))
        else
          col' <- wr (ag_col s1) (ag_up s1) j ;;
          done' <- wr (ag_done s1) j i ;;
          let s2 := ag_set_up (ag_set_done (ag_set_col s1 col') done')
                              (ag_up s1 + 1) in
          d' <- wr (ag_d s2) j h ;;
          Done (Next (ag_set_d s2 d'))
      else
        d' <- wr (ag_d s1) j h ;;
        Done (Next (ag_set_d s1 d'))
    else Done (Next s)
  else Done (Next s).

(** One pass through the body of the search loop (lines 369-433). *)
Definition ag_search (fuel : nat) (n : Z) (g : graph) (i off n_j : Z)
           (s : aug_state) : outcome (ctl aug_state) :=
  r <- (if ag_up s =? ag_low s then
          let s1 := ag_set_umin (ag_set_last s (ag_low s)) (inf F) in
          s2 <- for_range 0 n_j (ag_min g i off) s1 ;;
          let s3 := ag_set_j1 s2 n in
          r <- for_break (ag_low s3) (ag_up s3) (ag_check n i) s3 ;;
          let s4 := ctl_state r in
          if ag_j1 s4 <? n then Done (Break s4) else Done (Next s4)
        else Done (Next s)) ;;
  match r with
  | Break s' => Done (Break s')
  | Next s =>
      (* get the first j to be scanned *)
      j1 <- rd (ag_col s) (ag_low s) ;;
      let s := ag_set_low s (ag_low s + 1) in
      i1 <- rd (y (ag_mem s)) j1 ;;
      off2 <- rd (idx g) i1 ;;
      n_j2 <- rd (count g) i1 ;;
      jidx <- bsearch fuel (jj g) off2 n_j2 j1 ;;
      cv <- rd (c g) (off2 + jidx) ;;
      vj <- rd (v (ag_mem s)) j1 ;;
      let u1 := cv -. vj -. ag_umin s in
      let s := ag_set_j1 s n in
      r <- for_break 0 n_j2 (ag_relax n g i i1 off2 u1) s ;;
      let s := ctl_state r in
      if negb (ag_j1 s =? n) then Done (Break s) else Done (Next s)
  end.

(** Price update (lines 436-439). *)
Definition ag_price (jjj : Z) (s : aug_state) : outcome aug_state :=
  j <- rd (ag_col s) jjj ;;
  vj <- rd (v (ag_mem s)) j ;;
  dj <- rd (ag_d s) j ;;
  v' <- wr (v (ag_mem s)) j (vj +. (dj -. ag_umin s)) ;;
  Done (ag_set_mem s (set_v (ag_mem s) v')).

(** Path reversal (lines 440-445). *)
Definition ag_flip (i : Z) (s : aug_state) : outcome (ctl aug_state) :=
  let j1 := ag_j1 s in
  i1 <- rd (ag_pred s) j1 ;;
  y' <- wr (y (ag_mem s)) j1 i1 ;;
  xi1 <- rd (x (ag_mem s)) i1 ;;
  x' <- wr (x (ag_mem s)) i1 j1 ;;
  let s' := ag_set_j1 (ag_set_mem s (set_x (set_y (ag_mem s) y') x')) xi1 in
  if i1 =? i then Done (Break s') else Done (Next s').

(** The body of [for iii in range(n_i)]. *)
Definition ag_row (fuel : nat) (n : Z) (g : graph) (i : Z) (s : aug_state)
  : outcome aug_state :=
  off <- rd (idx g) i ;;
  n_j <- rd (count g) i ;;
  s <- for_range 0 n_j (ag_init g i off) s ;;
  let s := ag_set_up (ag_set_low s 0) 0 in
  s <- while fuel (ag_search fuel n g i off n_j) s ;;
  s <- for_range 0 (ag_last s) ag_price s ;;
  while fuel (ag_flip i) s.

(** Lines 449-453: the row duals are recomputed from [x] and [v]. *)
Definition ag_slack (fuel : nat) (g : graph) (i : Z) (m : mem) : outcome mem :=
  j <- rd (x m) i ;;
  off <- rd (idx g) i ;;
  cnt <- rd (count g) i ;;
  jidx <- bsearch fuel (jj g) off cnt j ;;
  cv <- rd (c g) (off + jidx) ;;
  vj <- rd (v m) j ;;
  u' <- wr (u m) i (cv -. vj) ;;
  Done (set_u m u').

(** The scratch arrays as allocated at lines 271-289; the locals [last],
    [umin] and [j1] receive their first value in the first pass of the
    search loop, where [up == low]. *)
Definition ag_alloc (n : Z) (m : mem) : aug_state :=
  {| ag_mem := m;
     ag_d := repeat (zero F) (Z.to_nat n);
     ag_pred := repeat 1 (Z.to_nat n);
     ag_col := repeat 0 (Z.to_nat n);
     ag_done := repeat (-1) (Z.to_nat n);
     ag_low := 0; ag_up := 0; ag_last := 0; ag_umin := inf F; ag_j1 := n |}.

Definition augment (fuel : nat) (n : Z) (g : graph) (ii : list Z) (m : mem)
  : outcome mem :=
  if n <? 0 then Fault   (* [np.zeros(n)] raises *)
  else
    s <- for_each ii (ag_row fuel n g) (ag_alloc n m) ;;
    for_range 0 n (ag_slack fuel g) (ag_mem s).

(** *** The three phases in sequence *)

(** Modelled from the spec: the caller of the three routines is not part
    of the file.  The specification fixes the order (reduction transfer
    over the rows that already have a column, augmenting row reduction
    over the unassigned rows, augmentation over the free list that the
    second phase returns) and the standard initial state (duals zero,
    assignments all-sentinel), from which no row has a column yet and
    every row is unassigned. *)
Definition run_phases (fuel : nat) (n : Z) (g : graph)
           (assigned unassigned : list Z) (m : mem) : outcome (mem * list Z) :=
  m1 <- reduction_transfer g assigned m ;;
  '(m2, _, free) <- augmenting_row_reduction fuel n g unassigned m1 ;;
  m3 <- augment fuel n g free m2 ;;
  Done (m3, free).

Definition initial (n : Z) : mem :=
  {| x := repeat n (Z.to_nat n); y := repeat n (Z.to_nat n);
     u := repeat (zero F) (Z.to_nat n); v := repeat (zero F) (Z.to_nat n) |}.

Definition rows (n : Z) : list Z := map Z.of_nat (seq 0 (Z.to_nat n)).

Definition pipeline (fuel : nat) (n : Z) (g : graph) : outcome (mem * list Z) :=
  run_phases fuel n g [] (rows n) (initial n).

End Kernel.

Arguments initial F n : clear implicits.

(** ** What the specification says about an instance *)

Section Reading.

Variable F : arith.

Definition at_ {A : Type} (dflt : A) (a : list A) (i : Z) : A :=
  nth (Z.to_nat i) a dflt.

Definition slice {A : Type} (a : list A) (off cnt : Z) : list A :=
  firstn (Z.to_nat cnt) (skipn (Z.to_nat off) a).

(** The feasible columns of row [i] with their costs. *)
Definition row_of (g : graph F) (i : Z) : list (Z * F) :=
  combine (slice (jj g) (at_ 0 (idx g) i) (at_ 0 (count g) i))
          (slice (c g) (at_ 0 (idx g) i) (at_ 0 (count g) i)).

Definition cost (g : graph F) (i j : Z) : option F :=
  option_map snd (find (fun p => fst p =? j) (row_of g i)).

(** [sum_i cost(i, xs[i])] for the rows [i, i+1, ...]; [None] when some
    pair is not in the graph. *)
Fixpoint assignment_cost (g : graph F) (i : Z) (xs : list Z) : option F :=
  match xs with
  | [] => Some (zero F)
  | j :: t =>
      match cost g i j, assignment_cost g (i + 1) t with
      | Some a, Some b => Some (add F a b)
      | _, _ => None
      end
  end.

Definition total_cost (g : graph F) (m : mem F) : option F :=
  assignment_cost g 0 (x m).

(** All the orders in which the elements of a list can be arranged. *)
Fixpoint insert_all (a : Z) (l : list Z) : list (list Z) :=
  match l with
  | [] => [[a]]
  | h :: t => (a :: l) :: map (cons h) (insert_all a t)
  end.

Fixpoint perms (l : list Z) : list (list Z) :=
  match l with
  | [] => [[]]
  | h :: t => flat_map (insert_all h) (perms t)
  end.

Definition keep_some {A : Type} (l : list (option A)) : list A :=
  flat_map (fun o => match o with Some a => [a] | None => [] end) l.

(** The costs of the perfect matchings of the instance. *)
Definition matching_costs (n : Z) (g : graph F) : list F :=
  keep_some (map (assignment_cost g 0) (perms (rows n))).

Definition least (l : list F) : option F :=
  match l with
  | [] => None
  | h :: t => Some (fold_left (fun a b => if ltb F b a then b else a) t h)
  end.

(** The value an exhaustive solver obtains; [None] when the instance has
    no perfect matching. *)
Definition min_matching_cost (n : Z) (g : graph F) : option F :=
  least (matching_costs n g).

Definition feasible (n : Z) (g : graph F) : Prop :=
  matching_costs n g <> [].

(** No sentinel in [x] or [y], and the two arrays inverse of each other. *)
Definition perfect (n : Z) (m : mem F) : bool :=
  forallb (fun i => negb (at_ n (x m) i =? n)
                    && (at_ n (y m) (at_ n (x m) i) =? i)) (rows n)
  && forallb (fun j => negb (at_ n (y m) j =? n)
                       && (at_ n (x m) (at_ n (y m) j) =? j)) (rows n)
  && (len (x m) =? n) && (len (y m) =? n).

(** [u[i] + v[j] <= cost(i,j)] on every pair of the graph, with equality
    on every assigned pair. *)
Definition slack_row (g : graph F) (m : mem F) (i : Z) : bool :=
  forallb (fun p => leb F (add F (at_ (zero F) (u m) i)
                                 (at_ (zero F) (v m) (fst p))) (snd p)
                    && (negb (at_ 0 (x m) i =? fst p)
                        || eqb F (add F (at_ (zero F) (u m) i)
                                        (at_ (zero F) (v m) (fst p))) (snd p)))
          (row_of g i).

Definition slackness (n : Z) (g : graph F) (m : mem F) : bool :=
  forallb (slack_row g m) (rows n).

End Reading.

(** ** Instances used below *)

(** Three rows over three columns, every cost 1:
    row 0 -> {0, 1}, row 1 -> {0, 2}, row 2 -> {0, 2}. *)
Definition ones3 : graph exact :=
  {| jj := [0; 1; 0; 2; 0; 2];
     idx := [0; 2; 4];
     count := [2; 2; 2];
     c := [Fin 1; Fin 1; Fin 1; Fin 1; Fin 1; Fin 1] |}.

(** The same instance in binary64. *)
Definition ones3_ieee : graph ieee :=
  {| jj := [0; 1; 0; 2; 0; 2];
     idx := [0; 2; 4];
     count := [2; 2; 2];
     c := [1; 1; 1; 1; 1; 1]%float |}.

(** Four rows over four columns:
    row 0 -> {1: 3, 2: 1, 3: 1}, row 1 -> {0: 1, 1: 1},
    row 2 -> {2: 1, 3: 1},       row 3 -> {0: 1, 2: 1}. *)
Definition detour4 : graph exact :=
  {| jj := [1; 2; 3; 0; 1; 2; 3; 0; 2];
     idx := [0; 3; 5; 7];
     count := [3; 2; 2; 2];
     c := [Fin 3; Fin 1; Fin 1; Fin 1; Fin 1; Fin 1; Fin 1; Fin 1; Fin 1] |}.

Definition detour4_ieee : graph ieee :=
  {| jj := [1; 2; 3; 0; 1; 2; 3; 0; 2];
     idx := [0; 3; 5; 7];
     count := [3; 2; 2; 2];
     c := [3; 1; 1; 1; 1; 1; 1; 1; 1]%float |}.

(** Four rows over four columns:
    row 0 -> {1: 1, 3: 1},       row 1 -> {0: 1, 1: 1},
    row 2 -> {0: 1, 2: 2, 3: 1}, row 3 -> {1: 1, 3: 1}. *)
Definition loose4 : graph exact :=
  {| jj := [1; 3; 0; 1; 0; 2; 3; 1; 3];
     idx := [0; 2; 4; 7];
     count := [2; 2; 3; 2];
     c := [Fin 1; Fin 1; Fin 1; Fin 1; Fin 1; Fin 2; Fin 1; Fin 1; Fin 1] |}.

Definition loose4_ieee : graph ieee :=
  {| jj := [1; 3; 0; 1; 0; 2; 3; 1; 3];
     idx := [0; 2; 4; 7];
     count := [2; 2; 3; 2];
     c := [1; 1; 1; 1; 1; 2; 1; 1; 1]%float |}.

(** A dense instance, every row over all three columns:
    row 0 -> {0: 4, 1: 1, 2: 2}, row 1 -> {0: 2, 1: 2, 2: 3},
    row 2 -> {0: 1, 1: 1, 2: 2}. *)
Definition dense3 : graph exact :=
  {| jj := [0; 1; 2; 0; 1; 2; 0; 1; 2];
     idx := [0; 3; 6];
     count := [3; 3; 3];
     c := [Fin 4; Fin 1; Fin 2; Fin 2; Fin 2; Fin 3; Fin 1; Fin 1; Fin 2] |}.

(** ** Definitions used in the statements *)

(** [refines r r']: the outcome [r'] is [r], unless [r] stopped for lack
    of fuel. *)
Definition refines {A : Type} (r r' : outcome A) : Prop :=
  r = Timeout \/ r = r'.

Section Claims.

Variable F : arith.

(** Row [i] reaches an unassigned column by an alternating path of at
    most [depth] graph edges: an edge of the graph to a column [j], and,
    when [j] is assigned, on from its owner [y[j]]. *)
Fixpoint reaches_free_column (depth : nat) (n : Z) (g : graph F) (m : mem F)
         (i : Z) : bool :=
  match depth with
  | O => false
  | Datatypes.S d =>
      existsb (fun p => if at_ n (y m) (fst p) =? n then true
                        else reaches_free_column d n g m (at_ n (y m) (fst p)))
              (row_of g i)
  end.

(** Following the specification of reduction transfer: the minimum of
    [cost(i,j) - v[j]] over the feasible columns [j] of row [i] other
    than [j1 = x[i]]. *)
Definition u_min_claim (g : graph F) (m : mem F) (i : Z) : F :=
  fold_left (fun a p =>
               if fst p =? at_ 0 (x m) i then a
               else let t := sub F (snd p) (at_ (zero F) (v m) (fst p)) in
                    if ltb F t a then t else a)
            (row_of g i) (inf F).

(** ... and then [v[j1] -= uMin - u[i]; u[i] = uMin]. *)
Definition rt_row_claim (g : graph F) (i : Z) (m : mem F) : mem F :=
  let j1 := at_ 0 (x m) i in
  let um := u_min_claim g m i in
  {| x := x m; y := y m;
     u := upd (u m) (Z.to_nat i) um;
     v := upd (v m) (Z.to_nat j1)
              (sub F (at_ (zero F) (v m) j1)
                     (sub F um (at_ (zero F) (u m) i))) |}.

End Claims.

(** The arrays of [ones3] as augmenting row reduction leaves them: row 1
    is free, its two columns 0 and 2 belong to rows 0 and 2, and column 1
    is unassigned. *)
Definition ones3_reduced : mem exact :=
  {| x := [0; 2; 2]; y := [0; 3; 2];
     u := [Fin 0; Fin 0; Fin 0]; v := [Fin 0; Fin 0; Fin 0] |}.

(** The search of [augment] for the free row 1 of [ones3] (slice at
    offset 2, two columns), from the freshly allocated scratch arrays:
    the initialization, then [k] passes through the body of the search
    loop. *)
Definition ones3_pass (k : nat) : outcome (ctl (aug_state exact)) :=
  s <- for_range 0 2 (ag_init ones3 1 2) (ag_alloc 3 ones3_reduced) ;;
  for_from k 0 (fun _ => ag_search 64 3 ones3 1 2 2) s.

(** [low], [up], [umin], [d], [col] and [done] of a state of the search. *)
Definition ag_view (r : outcome (ctl (aug_state exact)))
  : outcome (Z * Z * ext * list ext * list Z * list Z) :=
  r' <- r ;;
  let s := ctl_state r' in
  Done (ag_low s, ag_up s, ag_umin s, ag_d s, ag_col s, ag_done s).

(** Three rows over three columns with a tentative assignment on the
    diagonal: row 0 -> {0: 1, 1: 1}, row 1 -> {1: 5, 2: 7},
    row 2 -> {0: 1, 2: 1}. *)
Definition shifted3 : graph exact :=
  {| jj := [0; 1; 1; 2; 0; 2];
     idx := [0; 2; 4];
     count := [2; 2; 2];
     c := [Fin 1; Fin 1; Fin 5; Fin 7; Fin 1; Fin 1] |}.

Definition diagonal3 : mem exact :=
  {| x := [0; 1; 2]; y := [0; 1; 2];
     u := [Fin 0; Fin 0; Fin 0]; v := [Fin 0; Fin 0; Fin 0] |}.

(** One row with its single feasible column, already assigned. *)
Definition single1 : graph exact :=
  {| jj := [0]; idx := [0]; count := [1]; c := [Fin 5] |}.

Definition single1_mem : mem exact :=
  {| x := [0]; y := [0]; u := [Fin 0]; v := [Fin 0] |}.

Definition single1_ieee : graph ieee :=
  {| jj := [0]; idx := [0]; count := [1]; c := [5]%float |}.

Definition single1_mem_ieee : mem ieee :=
  {| x := [0]; y := [0]; u := [0]%float; v := [0]%float |}.

(** The [count] entries of [a] from offset [off] are strictly ascending. *)
Definition ascending (a : list Z) (off count : Z) : Prop :=
  forall p q, 0 <= p -> p < q -> q < count ->
              at_ 0 a (off + p) < at_ 0 a (off + q).

(** [p] is the first position among [0 .. m) where [t] is smallest. *)
Definition first_min (t : Z -> Z) (m p : Z) : Prop :=
  0 <= p < m /\
  (forall q, 0 <= q < m -> t p <= t q) /\
  (forall q, 0 <= q < p -> t p < t q).

(** [p2] is the first position among [0 .. m) other than [p1] where [t]
    is smallest among the positions other than [p1]. *)
Definition second_min (t : Z -> Z) (m p1 p2 : Z) : Prop :=
  0 <= p2 < m /\ p2 <> p1 /\
  (forall q, 0 <= q < m -> q <> p1 -> t p2 <= t q) /\
  (forall q, 0 <= q < p2 -> q <> p1 -> t p2 < t q).

(** The entries of [free] that have been filled so far. *)
Definition taken (F : arith) (st : arr_state F) : list Z :=
  firstn (Z.to_nat (st_nfree st)) (st_free st).

(** The column at position [p] of the slice that starts at [off], and its
    reduced cost [cost - v[column]] as the arithmetic computes it. *)
Definition column (F : arith) (g : graph F) (off p : Z) : Z :=
  at_ 0 (jj g) (off + p).

Definition reduced (F : arith) (g : graph F) (m : mem F) (off p : Z) : F :=
  sub F (at_ (zero F) (c g) (off + p)) (at_ (zero F) (v m) (column g off p)).

(** [rk] ranks the first [cnt] positions of the slice by reduced cost: the
    comparison [<] of the arithmetic on two reduced costs of the row is the
    comparison of their ranks, and every reduced cost is below [+inf].
    Such a ranking exists when no reduced cost of the row is a NaN or
    [+inf]. *)
Definition ranked (F : arith) (g : graph F) (m : mem F) (off cnt : Z)
           (rk : Z -> Z) : Prop :=
  (forall p q, 0 <= p < cnt -> 0 <= q < cnt ->
               ltb F (reduced g m off p) (reduced g m off q) = (rk p <? rk q)) /\
  (forall p, 0 <= p < cnt -> ltb F (reduced g m off p) (inf F) = true).

(** What the scan of augmenting row reduction holds after the first [p]
    columns of the slice. *)
Definition scan_inv (F : arith) (g : graph F) (m : mem F) (off : Z)
           (rk : Z -> Z) (p : Z) (s : scan2 F) : Prop :=
  (p = 0 /\ sc_u1 s = inf F /\ sc_u2 s = inf F) \/
  (exists p1,
      first_min rk p p1 /\
      sc_u1 s = reduced g m off p1 /\
      sc_j1 s = Some (column g off p1) /\
      ((p = 1 /\ sc_u2 s = inf F) \/
       (exists p2,
           second_min rk p p1 p2 /\
           sc_u2 s = reduced g m off p2 /\
           sc_j2 s = Some (column g off p2)))).

(** The passes of the loop of augmenting row reduction from the state [st]
    to the state in which the queue is exhausted, with the rows that the
    passes appended to the free list, in order. *)
Inductive arr_trace (F : arith) (n : Z) (g : graph F)
  : arr_state F -> list Z -> arr_state F -> Prop :=
| arr_trace_end (st : arr_state F) :
    (st_k st <? len (st_ii st)) = false ->
    arr_trace n g st [] st
| arr_trace_pass (st st' st_end : arr_state F) (ds fr : list Z) :
    (st_k st <? len (st_ii st)) = true ->
    arr_row n g st = Done st' ->
    taken st' = taken st ++ ds ->
    arr_trace n g st' fr st_end ->
    arr_trace n g st (ds ++ fr) st_end.

(** Two rows over two columns: row 0 -> {0: 1, 1: 5}, row 1 -> {0: 1, 1: 9}. *)
Definition pair2 : graph exact :=
  {| jj := [0; 1; 0; 1]; idx := [0; 2]; count := [2; 2];
     c := [Fin 1; Fin 5; Fin 1; Fin 9] |}.

(** Two rows over two columns in binary64, row 0 -> {0: 0.5, 1: 0.75} and
    row 1 -> {0: 0.75, 1: 0.5}, and the loop of augmenting row reduction
    as it is entered with the prices [0.1, 0] (0.1 is the double nearest
    to one tenth). *)
Definition fractions2 : graph ieee :=
  {| jj := [0; 1; 0; 1]; idx := [0; 2]; count := [2; 2];
     c := [0.5; 0.75; 0.75; 0.5]%float |}.

Definition fractions2_state : arr_state ieee :=
  {| st_mem := {| x := [2; 2]; y := [2; 2]; u := [0; 0]%float;
                  v := [0x1.999999999999ap-4; 0]%float |};
     st_ii := [0; 1]; st_free := [0; 0; 0]; st_nfree := 0; st_k := 0;
     st_j1 := None; st_j2 := None |}.

(** The columns [0, 1, ..., n - 1] in order: the slice of a row that has
    every column. *)
Definition columns_upto (n : Z) : list Z := map Z.of_nat (seq 0 (Z.to_nat n)).

(** ** Locals that are declared without a value

    [augmenting_row_reduction] declares [j1] and [j2] at lines 180-181 and
    reads them at lines 220 and 227-232 whether or not the scan has
    assigned them: the compiled code then works with what the two locals
    happen to hold.  In [arr_init_with] they hold [j1] and [j2] on entry;
    [None] is a local whose read the model refuses, as in [arr_init]. *)

Section Stale.

Variable F : arith.

Definition arr_init_with (j1 j2 : option Z) (ii : list Z) (m : mem F)
  : outcome (arr_state F) :=
  top <- np_max (y m) ;;
  Done {| st_mem := m; st_ii := ii; st_free := zeros (top + 1);
          st_nfree := 0; st_k := 0; st_j1 := j1; st_j2 := j2 |}.

Definition augmenting_row_reduction_with (j1 j2 : option Z) (fuel : nat)
           (n : Z) (g : graph F) (ii : list Z) (m : mem F)
  : outcome (mem F * list Z * list Z) :=
  st0 <- arr_init_with j1 j2 ii m ;;
  st <- while fuel (arr_body n g) st0 ;;
  Done (st_mem st, st_ii st, firstn (Z.to_nat (st_nfree st)) (st_free st)).

(** Modelled from the spec: the caller of the three routines is not part
    of the file; the phases in the order of [run_phases]. *)
Definition run_phases_with (j1 j2 : option Z) (fuel : nat) (n : Z)
           (g : graph F) (assigned unassigned : list Z) (m : mem F)
  : outcome (mem F * list Z) :=
  m1 <- reduction_transfer g assigned m ;;
  '(m2, _, free) <-
    augmenting_row_reduction_with j1 j2 fuel n g unassigned m1 ;;
  m3 <- augment fuel n g free m2 ;;
  Done (m3, free).

(** [o'] holds the value of [o] if [o] has one. *)
Definition known (o o' : option Z) : Prop := forall a, o = Some a -> o' = Some a.

(** Two states of the scan, or of the loop, that differ at most in locals
    the first has no value for. *)
Definition scan_known (s s' : scan2 F) : Prop :=
  sc_u1 s = sc_u1 s' /\ sc_u2 s = sc_u2 s' /\
  known (sc_j1 s) (sc_j1 s') /\ known (sc_j2 s) (sc_j2 s').

Definition state_known (st st' : arr_state F) : Prop :=
  st_mem st = st_mem st' /\ st_ii st = st_ii st' /\
  st_free st = st_free st' /\ st_nfree st = st_nfree st' /\
  st_k st = st_k st' /\
  known (st_j1 st) (st_j1 st') /\ known (st_j2 st) (st_j2 st').

End Stale.

(** Two rows over two columns in binary64: row 0 has no column, row 1 has
    both at cost 1. *)
Definition gap2 : graph ieee :=
  {| jj := [0; 1]; idx := [0; 0]; count := [0; 2]; c := [1; 1]%float |}.

(** ** Definitions used in the further properties *)

Section Further.

Variable F : arith.

(** Row [i] has the dual that lines 450-453 compute from [x], [v] and the
    graph. *)
Definition dual_recomputed (fuel : nat) (g : graph F) (m : mem F) (i : Z)
  : Prop :=
  exists j off cnt k cv vj,
    rd (x m) i = Done j /\ rd (idx g) i = Done off /\
    rd (count g) i = Done cnt /\
    bsearch fuel (jj g) off cnt j = Done k /\
    rd (c g) (off + k) = Done cv /\ rd (v m) j = Done vj /\
    rd (u m) i = Done (sub F cv vj).

(** Every real owner recorded in [y] has the column in [x]. *)
Definition consistent (n : Z) (m : mem F) : Prop :=
  forall j r, rd (y m) j = Done r -> r <> n -> rd (x m) r = Done j.

(** Row [r] is the owner of no column. *)
Definition ownerless (m : mem F) (r : Z) : Prop :=
  forall j, rd (y m) j <> Done r.

(** Row [r] has a column, and the column has it. *)
Definition assigned (m : mem F) (r : Z) : Prop :=
  exists j, rd (x m) r = Done j /\ rd (y m) j = Done r.

(** The rows still in the queue. *)
Definition pending (st : arr_state F) : list Z :=
  skipn (Z.to_nat (st_k st)) (st_ii st).

(** What every pass of the loop at lines 204-243 keeps: [pending] are the
    rows still to come, [taken] the free list written so far. *)
Definition arr_inv (n : Z) (ii0 : list Z) (st : arr_state F) : Prop :=
  0 <= st_k st /\
  consistent n (st_mem st) /\
  NoDup (pending st) /\
  (forall r, In r (pending st) -> ownerless (st_mem st) r) /\
  NoDup (taken st) /\
  (forall e, In e (taken st) ->
             e <> n /\ ownerless (st_mem st) e /\ ~ In e (pending st)) /\
  (forall r, In r ii0 ->
             In r (pending st) \/ In r (taken st) \/ assigned (st_mem st) r).

(** The search loop of [augment] (lines 369-433) before and after it has
    met an unassigned column: [m] is the state it started from. *)
Definition searching (n : Z) (m : mem F) (s : aug_state F) : Prop :=
  ag_mem s = m /\ ag_j1 s = n.

Definition found (n : Z) (m : mem F) (s : aug_state F) : Prop :=
  ag_mem s = m /\ rd (y m) (ag_j1 s) = Done n.

End Further.

(** [detour4] after augmenting row reduction: row 0 is the only free
    row. *)
Definition detour4_reduced : mem exact :=
  {| x := [2; 0; 3; 2]; y := [1; 4; 3; 2];
     u := [Fin 0; Fin 0; Fin 0; Fin 0];
     v := [Fin 0; Fin 0; Fin 0; Fin 0] |}.

(** The search for row 0 of [detour4] after lines 361-367. *)
Definition detour4_search : aug_state exact :=
  {| ag_mem := detour4_reduced;
     ag_d := [Fin 0; Fin 3; Fin 1; Fin 1];
     ag_pred := [1; 0; 0; 0];
     ag_col := [1; 2; 3; 0];
     ag_done := [-1; -1; -1; -1];
     ag_low := 0; ag_up := 0; ag_last := 0; ag_umin := PInf; ag_j1 := 4 |}.

(** [pair2] after augmenting row reduction: no row is free. *)
Definition pair2_reduced : mem exact :=
  {| x := [1; 0]; y := [1; 0];
     u := [Fin 0; Fin 0]; v := [Fin (-8); Fin (-4)] |}.

(** * Properties *)

(** ** Fuel

    A run with more fuel agrees with a run with less, unless the latter
    stopped for lack of fuel. *)

Lemma refines_refl {A : Type} (r : outcome A) : refines r r.
Proof. right; reflexivity. Qed.

Lemma refines_timeout {A : Type} (r : outcome A) : refines Timeout r.
Proof. left; reflexivity. Qed.

Lemma refines_bind {A B : Type} (m m' : outcome A) (k k' : A -> outcome B) :
  refines m m' -> (forall a, refines (k a) (k' a)) ->
  refines (bind m k) (bind m' k').
Proof.
  intros [-> | ->] Hk.
  - apply refines_timeout.
  - destruct m'; simpl; auto using refines_refl.
Qed.

Lemma refines_done {A : Type} (r r' : outcome A) (a : A) :
  refines r r' -> r = Done a -> r' = Done a.
Proof. intros [-> | ->]; [discriminate | auto]. Qed.

Lemma refines_fault {A : Type} (r r' : outcome A) :
  refines r r' -> r = Fault -> r' = Fault.
Proof. intros [-> | ->]; [discriminate | auto]. Qed.

(** Two runs of a fuel-monotone computation that both come to an end,
    come to the same end. *)
Lemma refines_agree {A : Type} (run : nat -> outcome A) :
  (forall f f', (f <= f')%nat -> refines (run f) (run f')) ->
  forall f1 f2, run f1 <> Timeout -> run f2 <> Timeout -> run f1 = run f2.
Proof.
  intros Hmono f1 f2 H1 H2.
  destruct (Nat.le_ge_cases f1 f2) as [Hle | Hle];
    destruct (Hmono _ _ Hle) as [E | E]; congruence.
Qed.

(** A run that faults with some fuel never returns, whatever the fuel. *)
Lemma fault_never_done {A : Type} (run : nat -> outcome A) (f0 : nat) :
  (forall f f', (f <= f')%nat -> refines (run f) (run f')) ->
  run f0 = Fault -> forall f a, run f <> Done a.
Proof.
  intros Hmono H0 f a Hf.
  destruct (Nat.le_ge_cases f f0) as [Hle | Hle].
  - pose proof (refines_done (Hmono _ _ Hle) Hf). congruence.
  - pose proof (refines_fault (Hmono _ _ Hle) H0). congruence.
Qed.

Lemma for_from_refines {S : Type} (b b' : Z -> S -> outcome (ctl S)) :
  (forall j s, refines (b j s) (b' j s)) ->
  forall cnt j s, refines (for_from cnt j b s) (for_from cnt j b' s).
Proof.
  intros Hb; induction cnt as [| cnt IH]; intros j s; simpl.
  - apply refines_refl.
  - apply refines_bind; [apply Hb |].
    intros [s' | s']; [apply IH | apply refines_refl].
Qed.

Lemma for_break_refines {S : Type} (b b' : Z -> S -> outcome (ctl S)) lo hi s :
  (forall j s, refines (b j s) (b' j s)) ->
  refines (for_break lo hi b s) (for_break lo hi b' s).
Proof. intros Hb; apply for_from_refines; exact Hb. Qed.

Lemma for_range_refines {S : Type} (b b' : Z -> S -> outcome S) lo hi s :
  (forall j s, refines (b j s) (b' j s)) ->
  refines (for_range lo hi b s) (for_range lo hi b' s).
Proof.
  intros Hb; unfold for_range.
  apply refines_bind; [| intros; apply refines_refl].
  apply for_break_refines; intros j s0.
  apply refines_bind; [apply Hb | intros; apply refines_refl].
Qed.

Lemma for_each_refines {A S : Type} (b b' : A -> S -> outcome S) :
  (forall i s, refines (b i s) (b' i s)) ->
  forall a s, refines (for_each a b s) (for_each a b' s).
Proof.
  intros Hb; induction a as [| i a IH]; intros s; simpl.
  - apply refines_refl.
  - apply refines_bind; [apply Hb | exact IH].
Qed.

Lemma while_refines {S : Type} (b b' : S -> outcome (ctl S)) :
  (forall s, refines (b s) (b' s)) ->
  forall f f' s, (f <= f')%nat -> refines (while f b s) (while f' b' s).
Proof.
  intros Hb; induction f as [| f IH]; intros f' s Hle.
  - apply refines_timeout.
  - destruct f' as [| f']; [lia |]; simpl.
    apply refines_bind; [apply Hb |].
    intros [s' | s']; [apply IH; lia | apply refines_refl].
Qed.

Lemma bsearch_loop_refines a off valu :
  forall f f' low high, (f <= f')%nat ->
  refines (bsearch_loop f a off valu low high)
          (bsearch_loop f' a off valu low high).
Proof.
  induction f as [| f IH]; intros f' low high Hle.
  - apply refines_timeout.
  - destruct f' as [| f']; [lia |]; simpl.
    destruct (low <=? high); [| apply refines_refl].
    apply refines_bind; [apply refines_refl |]; intros p.
    destruct (valu =? p); [apply refines_refl |].
    destruct (valu >? p); apply IH; lia.
Qed.

Lemma bsearch_refines a off count valu f f' :
  (f <= f')%nat ->
  refines (bsearch f a off count valu) (bsearch f' a off count valu).
Proof. apply bsearch_loop_refines. Qed.

Ltac refines_step :=
  match goal with
  | |- refines ?r ?r => apply refines_refl
  | |- refines (bind _ _) (bind _ _) => apply refines_bind; [| intros ?]
  | |- refines (if ?b then _ else _) (if ?b then _ else _) => destruct b
  | |- refines (match ?r with _ => _ end) (match ?r with _ => _ end) =>
      destruct r
  | |- refines (for_range _ _ _ _) (for_range _ _ _ _) =>
      apply for_range_refines; intros ? ?
  | |- refines (for_break _ _ _ _) (for_break _ _ _ _) =>
      apply for_break_refines; intros ? ?
  | |- refines (for_each _ _ _) (for_each _ _ _) =>
      apply for_each_refines; intros ? ?
  | |- refines (bsearch _ _ _ _ _) (bsearch _ _ _ _ _) =>
      apply bsearch_refines; assumption
  | |- refines (while _ _ _) (while _ _ _) =>
      apply while_refines; [intros ? | assumption]
  end.

Section FuelKernel.

Variable F : arith.

Lemma ag_search_refines f f' n (g : graph F) i off n_j s :
  (f <= f')%nat ->
  refines (ag_search f n g i off n_j s) (ag_search f' n g i off n_j s).
Proof. intros Hle; unfold ag_search; repeat refines_step. Qed.

Lemma ag_row_refines f f' n (g : graph F) i s :
  (f <= f')%nat -> refines (ag_row f n g i s) (ag_row f' n g i s).
Proof.
  intros Hle; unfold ag_row; repeat refines_step.
  apply ag_search_refines; assumption.
Qed.

Lemma ag_slack_refines f f' (g : graph F) i m :
  (f <= f')%nat -> refines (ag_slack f g i m) (ag_slack f' g i m).
Proof. intros Hle; unfold ag_slack; repeat refines_step. Qed.

Lemma augment_refines f f' n (g : graph F) ii m :
  (f <= f')%nat -> refines (augment f n g ii m) (augment f' n g ii m).
Proof.
  intros Hle; unfold augment; repeat refines_step.
  - apply ag_row_refines; assumption.
  - apply ag_slack_refines; assumption.
Qed.

Lemma augmenting_row_reduction_refines f f' n (g : graph F) ii m :
  (f <= f')%nat ->
  refines (augmenting_row_reduction f n g ii m)
          (augmenting_row_reduction f' n g ii m).
Proof. intros Hle; unfold augmenting_row_reduction; repeat refines_step. Qed.

Lemma run_phases_refines f f' n (g : graph F) assigned unassigned m :
  (f <= f')%nat ->
  refines (run_phases f n g assigned unassigned m)
          (run_phases f' n g assigned unassigned m).
Proof.
  intros Hle; unfold run_phases; repeat refines_step.
  - apply augmenting_row_reduction_refines; assumption.
  - apply augment_refines; assumption.
Qed.

Lemma pipeline_refines f f' n (g : graph F) :
  (f <= f')%nat -> refines (pipeline f n g) (pipeline f' n g).
Proof. apply run_phases_refines. Qed.

End FuelKernel.

(** ** The augmentation misses columns outside the free row's own list *)

(** On the dense instance [dense3] every column is a column of the free
    row and the three phases end as the specification says: row 0 goes
    through the augmentation, the matching is perfect and of least cost,
    and the duals satisfy complementary slackness. *)
Example pipeline_dense3 :
  exists m,
    pipeline 64 3 dense3 = Done (m, [0]) /\
    x m = [2; 0; 1] /\ perfect 3 m = true /\
    total_cost dense3 m = min_matching_cost 3 dense3 /\
    slackness 3 dense3 m = true.
Proof.
  eexists; split; [vm_compute; reflexivity |].
  repeat split; vm_compute; reflexivity.
Qed.

(** C1 (fails on the code): on [detour4], which has perfect matchings of
    cost 4, the three phases return for every fuel from 64 on a perfect
    matching of cost 6, in exact arithmetic and in binary64. *)
Theorem pipeline_detour4_not_optimal :
  min_matching_cost 4 detour4 = Some (Fin 4) /\
  min_matching_cost 4 detour4_ieee = Some 4%float /\
  (forall k, exists m fr,
      pipeline (64 + k) 4 detour4 = Done (m, fr) /\
      x m = [1; 0; 3; 2] /\ perfect 4 m = true /\
      total_cost detour4 m = Some (Fin 6)) /\
  (forall k, exists m fr,
      pipeline (64 + k) 4 detour4_ieee = Done (m, fr) /\
      x m = [1; 0; 3; 2] /\ perfect 4 m = true /\
      total_cost detour4_ieee m = Some 6%float).
Proof.
  split; [vm_compute; reflexivity |].
  split; [vm_compute; reflexivity |].
  split; intros k.
  - assert (H : refines (pipeline 64 4 detour4) (pipeline (64 + k) 4 detour4))
      by (apply pipeline_refines; lia).
    destruct H as [H | H]; [vm_compute in H; discriminate |].
    rewrite <- H.
    eexists; eexists; split; [vm_compute; reflexivity |].
    repeat split; vm_compute; reflexivity.
  - assert (H : refines (pipeline 64 4 detour4_ieee)
                        (pipeline (64 + k) 4 detour4_ieee))
      by (apply pipeline_refines; lia).
    destruct H as [H | H]; [vm_compute in H; discriminate |].
    rewrite <- H.
    eexists; eexists; split; [vm_compute; reflexivity |].
    repeat split; vm_compute; reflexivity.
Qed.

(** C2 (fails on the code): [ones3] has a perfect matching, but the three
    phases never return on it, whatever the fuel: the search of [augment]
    leaves the scratch array [col]. *)
Theorem pipeline_ones3_no_matching :
  feasible 3 ones3 /\
  pipeline 64 3 ones3 = Fault /\
  pipeline 64 3 ones3_ieee = Fault /\
  (forall fuel r, pipeline fuel 3 ones3 <> Done r) /\
  (forall fuel r, pipeline fuel 3 ones3_ieee <> Done r).
Proof.
  split; [vm_compute; discriminate |].
  split; [vm_compute; reflexivity |].
  split; [vm_compute; reflexivity |].
  split; intros fuel r.
  - apply (@fault_never_done _ (fun f => pipeline f 3 ones3) 64).
    + intros; apply pipeline_refines; assumption.
    + vm_compute; reflexivity.
  - apply (@fault_never_done _ (fun f => pipeline f 3 ones3_ieee) 64).
    + intros; apply pipeline_refines; assumption.
    + vm_compute; reflexivity.
Qed.

(** C3 (fails on the code): on [loose4] the three phases return for every
    fuel from 64 on a perfect matching whose duals break the inequality
    on the pair (1,1) of the graph: [u[1] + v[1] = 2] while
    [cost(1,1) = 1]. *)
Theorem pipeline_loose4_slackness :
  feasible 4 loose4 /\
  (forall k, exists m fr,
      pipeline (64 + k) 4 loose4 = Done (m, fr) /\ perfect 4 m = true /\
      slackness 4 loose4 m = false /\
      cost loose4 1 1 = Some (Fin 1) /\
      ext_add (at_ (Fin 0) (u m) 1) (at_ (Fin 0) (v m) 1) = Fin 2) /\
  (forall k, exists m fr,
      pipeline (64 + k) 4 loose4_ieee = Done (m, fr) /\ perfect 4 m = true /\
      slackness 4 loose4_ieee m = false).
Proof.
  split; [vm_compute; discriminate |].
  split; intros k.
  - assert (H : refines (pipeline 64 4 loose4) (pipeline (64 + k) 4 loose4))
      by (apply pipeline_refines; lia).
    destruct H as [H | H]; [vm_compute in H; discriminate |].
    rewrite <- H.
    eexists; eexists; split; [vm_compute; reflexivity |].
    repeat split; vm_compute; reflexivity.
  - assert (H : refines (pipeline 64 4 loose4_ieee)
                        (pipeline (64 + k) 4 loose4_ieee))
      by (apply pipeline_refines; lia).
    destruct H as [H | H]; [vm_compute in H; discriminate |].
    rewrite <- H.
    eexists; eexists; split; [vm_compute; reflexivity |].
    repeat split; vm_compute; reflexivity.
Qed.

(** C6 (fails on the code): augmenting row reduction leaves [ones3] with
    row 1 free; row 1 reaches the unassigned column 1 through column 0
    and its owner row 0; the search of [augment] for row 1 never reaches
    the price update: for every fuel it stops short or leaves the
    scratch array [col]. *)
Theorem augment_ones3_no_return :
  augmenting_row_reduction 64 3 ones3 (rows 3) (initial exact 3)
    = Done (ones3_reduced, [0; 1; 2], [1]) /\
  reaches_free_column 2 3 ones3 ones3_reduced 1 = true /\
  augment 64 3 ones3 [1] ones3_reduced = Fault /\
  (forall fuel m, augment fuel 3 ones3 [1] ones3_reduced <> Done m).
Proof.
  split; [vm_compute; reflexivity |].
  split; [vm_compute; reflexivity |].
  split; [vm_compute; reflexivity |].
  intros fuel m.
  apply (@fault_never_done _ (fun f => augment f 3 ones3 [1] ones3_reduced) 64).
  - intros; apply augment_refines; assumption.
  - vm_compute; reflexivity.
Qed.

(** The search for row 1 on [ones3], pass by pass.  The initialization
    gives a distance to columns 0 and 2; [d[1]] stays 0.  Pass 1 finds
    both columns at the minimum 1, both assigned, and relaxes through row
    0, the owner of column 0: column 1 would be reached with [h = 1], but
    [h < d[1]] fails and [d] is unchanged.  Pass 2 relaxes through row 2.
    Pass 3 finds no column to do ([umin] stays [+inf], [up = low = 2]) and
    goes on to read the stale [col[2]]; pass 4 reads [col[3]]. *)
Example ones3_search_trace :
  ag_view (ones3_pass 0)
  = Done (0, 0, PInf, [Fin 1; Fin 0; Fin 1], [0; 2; 0], [-1; -1; -1]) /\
  ag_view (ones3_pass 1)
  = Done (1, 2, Fin 1, [Fin 1; Fin 0; Fin 1], [0; 2; 0], [1; -1; 1]) /\
  ag_view (ones3_pass 2)
  = Done (2, 2, Fin 1, [Fin 1; Fin 0; Fin 1], [0; 2; 0], [1; -1; 1]) /\
  ag_view (ones3_pass 3)
  = Done (3, 2, PInf, [Fin 1; Fin 0; Fin 1], [0; 2; 0], [1; -1; 1]) /\
  ones3_pass 4 = Fault.
Proof. repeat split; vm_compute; reflexivity. Qed.

(** A row with a single feasible column: augmenting row reduction finds
    no second column ([u2] stays [+inf]) and lowers the price of the
    column by [+inf]; the three phases return the matching, with
    [u = +inf] and [v = -inf], whose sum is NaN. *)
Example pipeline_single1 :
  pipeline 64 1 single1
  = Done ({| x := [0]; y := [0]; u := [PInf]; v := [NInf] |}, []) /\
  pipeline 64 1 single1_ieee
  = Done ({| x := [0]; y := [0];
             u := [PrimFloat.infinity]; v := [PrimFloat.neg_infinity] |}, []) /\
  ext_add PInf NInf = NaN.
Proof. repeat split; vm_compute; reflexivity. Qed.

(** ** Reduction transfer reads the columns of another row *)

(** C4 (fails on the code): on [shifted3], row 1 (columns 1 and 2,
    assigned to column 1) has the minimum 7 over its other column 2; the
    code pairs the costs of row 1 with the columns of row 0 and obtains 5. *)
Theorem reduction_transfer_shifted3 :
  row_of shifted3 1 = [(1, Fin 5); (2, Fin 7)] /\
  u_min_claim shifted3 diagonal3 1 = Fin 7 /\
  rt_row_claim shifted3 1 diagonal3
    = {| x := [0; 1; 2]; y := [0; 1; 2];
         u := [Fin 0; Fin 7; Fin 0]; v := [Fin 0; Fin (-7); Fin 0] |} /\
  reduction_transfer shifted3 [1] diagonal3
    = Done {| x := [0; 1; 2]; y := [0; 1; 2];
              u := [Fin 0; Fin 5; Fin 0]; v := [Fin 0; Fin (-5); Fin 0] |}.
Proof. repeat split; vm_compute; reflexivity. Qed.

(** ** Arrays: reading and writing in range *)

Lemma rd_in_range {A : Type} (d : A) (a : list A) (i : Z) :
  0 <= i < len a -> rd a i = Done (at_ d a i).
Proof.
  intros [Hlo Hhi]; unfold rd, at_, len in *.
  destruct (Z.ltb_spec i 0) as [? | _]; [lia |].
  destruct (nth_error a (Z.to_nat i)) as [w |] eqn:E.
  - apply (nth_error_nth a (Z.to_nat i) d) in E; congruence.
  - apply nth_error_None in E; lia.
Qed.

Lemma rd_done {A : Type} (d : A) (a : list A) (i : Z) (w : A) :
  rd a i = Done w -> 0 <= i < len a /\ at_ d a i = w.
Proof.
  unfold rd, at_, len.
  destruct (Z.ltb_spec i 0) as [? | Hlo]; [discriminate |].
  destruct (nth_error a (Z.to_nat i)) as [w' |] eqn:E; [| discriminate].
  intros H; injection H as ->.
  split.
  - assert (nth_error a (Z.to_nat i) <> None) as Hn by congruence.
    apply nth_error_Some in Hn; lia.
  - apply nth_error_nth; exact E.
Qed.

Lemma wr_in_range {A : Type} (a : list A) (i : Z) (w : A) :
  0 <= i < len a -> wr a i w = Done (upd a (Z.to_nat i) w).
Proof.
  intros [Hlo Hhi]; unfold wr.
  destruct (Z.leb_spec 0 i); [| lia].
  destruct (Z.ltb_spec i (len a)); [reflexivity | lia].
Qed.


Lemma wrap_int_small (z : Z) : - 2 ^ 31 <= z < 2 ^ 31 -> wrap_int z = z.
Proof.
  intros H; unfold wrap_int.
  rewrite Z.mod_small; lia.
Qed.

(** ** Binary search *)

Lemma ascending_inj a off count p q :
  ascending a off count -> 0 <= p < count -> 0 <= q < count ->
  at_ 0 a (off + p) = at_ 0 a (off + q) -> p = q.
Proof.
  intros Hasc Hp Hq E.
  destruct (Z.lt_trichotomy p q) as [H | [H | H]]; [| exact H |].
  - pose proof (Hasc p q ltac:(lia) H ltac:(lia)); lia.
  - pose proof (Hasc q p ltac:(lia) H ltac:(lia)); lia.
Qed.

Lemma bsearch_loop_finds a off count k :
  0 <= off -> off + count <= len a -> count <= 2 ^ 30 ->
  ascending a off count -> 0 <= k < count ->
  forall fuel low high,
    0 <= low <= k -> k <= high < count ->
    (Z.to_nat (high - low) < fuel)%nat ->
    bsearch_loop fuel a off (at_ 0 a (off + k)) low high = Done k.
Proof.
  intros Hoff Hlen Hcnt Hasc Hk.
  induction fuel as [| fuel IH]; intros low high Hlow Hhigh Hfuel; [lia |].
  simpl.
  destruct (Z.leb_spec low high) as [_ | ?]; [| lia].
  rewrite wrap_int_small by lia.
  set (mid := (low + high) / 2).
  assert (Hmid : low <= mid <= high).
  { unfold mid; split.
    - apply Z.div_le_lower_bound; lia.
    - apply Z.div_le_upper_bound; lia. }
  rewrite (rd_in_range 0) by lia; simpl.
  destruct (Z.eqb_spec (at_ 0 a (off + k)) (at_ 0 a (off + mid))) as [E | NE].
  - f_equal; symmetry.
    apply (ascending_inj Hasc); [lia | lia | exact E].
  - destruct (Z.gtb_spec (at_ 0 a (off + k)) (at_ 0 a (off + mid))) as [G | G].
    + assert (mid < k).
      { destruct (Z.lt_trichotomy mid k) as [H | [H | H]]; [exact H | congruence |].
        pose proof (Hasc k mid ltac:(lia) H ltac:(lia)); lia. }
      apply IH; lia.
    + assert (k < mid).
      { destruct (Z.lt_trichotomy mid k) as [H | [H | H]]; [| congruence | exact H].
        pose proof (Hasc mid k ltac:(lia) H ltac:(lia)); lia. }
      apply IH; lia.
Qed.

(** C9 (amended): on a strictly ascending slice of [count] columns,
    [count] at most 2^30 so that [low + high] stays a C int, with more
    fuel than columns, the search for the column stored at position [k]
    returns [k], and [k] is the only position of the slice that holds
    it. *)
Theorem bsearch_round_trip a off count k fuel :
  0 <= off -> off + count <= len a -> count <= 2 ^ 30 ->
  ascending a off count -> 0 <= k < count ->
  (Z.to_nat count < fuel)%nat ->
  bsearch fuel a off count (at_ 0 a (off + k)) = Done k /\
  (forall k', 0 <= k' < count ->
              at_ 0 a (off + k') = at_ 0 a (off + k) -> k' = k).
Proof.
  intros Hoff Hlen Hcnt Hasc Hk Hfuel; split.
  - unfold bsearch.
    apply (bsearch_loop_finds Hoff Hlen Hcnt Hasc Hk); lia.
  - intros k' Hk' E.
    apply (ascending_inj Hasc); assumption.
Qed.

Lemma bsearch_round_trip_witness :
  bsearch 4 [7; 0; 2; 5; 9] 1 3 5 = Done 2 /\
  (forall k', 0 <= k' < 3 ->
              at_ 0 [7; 0; 2; 5; 9] (1 + k') = at_ 0 [7; 0; 2; 5; 9] (1 + 2) ->
              k' = 2).
Proof.
  apply (@bsearch_round_trip [7; 0; 2; 5; 9] 1 3 2 4).
  - lia.
  - vm_compute; discriminate.
  - vm_compute; discriminate.
  - intros p q Hp Hpq Hq.
    assert (Hc : (p = 0 /\ q = 1) \/ (p = 0 /\ q = 2) \/ (p = 1 /\ q = 2)) by lia.
    destruct Hc as [[-> ->] | [[-> ->] | [-> ->]]]; vm_compute; reflexivity.
  - lia.
  - vm_compute; lia.
Defined.

(** *** Slices of more than 2^30 columns *)

Lemma columns_upto_len (n : Z) : 0 <= n -> len (columns_upto n) = n.
Proof.
  intros Hn; unfold len, columns_upto.
  rewrite length_map, length_seq; lia.
Qed.

Lemma columns_upto_at (n i : Z) : 0 <= i < n -> at_ 0 (columns_upto n) i = i.
Proof.
  intros Hi; unfold at_, columns_upto.
  rewrite (nth_indep _ 0 (Z.of_nat 0)) by (rewrite length_map, length_seq; lia).
  rewrite map_nth, seq_nth by lia.
  lia.
Qed.

Lemma columns_upto_ascending (n : Z) : ascending (columns_upto n) 0 n.
Proof.
  intros p q Hp Hpq Hq.
  rewrite !columns_upto_at by lia; lia.
Qed.

(** The search for the last column of a slice of 2^30 + 1 columns: once
    [low] has reached [high] = 2^30 the sum [low + high] is 2^31, which is
    not an [int]. *)
Lemma bsearch_loop_overflows (a : list Z) :
  len a = 2 ^ 30 + 1 ->
  (forall i, 0 <= i <= 2 ^ 30 -> at_ 0 a i = i) ->
  forall fuel low,
    0 <= low <= 2 ^ 30 ->
    2 ^ 30 - low < 2 ^ (Z.of_nat fuel - 1) ->
    bsearch_loop fuel a 0 (2 ^ 30) low (2 ^ 30) = Fault.
Proof.
  intros Hlen Hat.
  induction fuel as [| fuel IH]; intros low Hlow Hd.
  - change (Z.of_nat 0 - 1) with (-1) in Hd.
    change (2 ^ (-1)) with 0 in Hd; lia.
  - cbn [bsearch_loop].
    destruct (Z.leb_spec low (2 ^ 30)) as [_ | Hgt]; [| lia].
    destruct (Z.eq_dec low (2 ^ 30)) as [-> | Hne].
    + change (wrap_int (2 ^ 30 + 2 ^ 30) / 2) with (- 2 ^ 30).
      reflexivity.
    + rewrite wrap_int_small by lia.
      set (mid := (low + 2 ^ 30) / 2).
      assert (Hmid : low <= mid < 2 ^ 30).
      { unfold mid; split.
        - apply Z.div_le_lower_bound; lia.
        - apply Z.div_lt_upper_bound; lia. }
      rewrite (rd_in_range 0) by lia; cbn [bind].
      rewrite Z.add_0_l, Hat by lia.
      destruct (Z.eqb_spec (2 ^ 30) mid) as [E | _]; [lia |].
      destruct (Z.gtb_spec (2 ^ 30) mid) as [_ | Hle]; [| lia].
      apply IH; [lia |].
      destruct fuel as [| fuel].
      { change (Z.of_nat 1 - 1) with 0 in Hd.
        change (2 ^ 0) with 1 in Hd; lia. }
      replace (Z.of_nat (S (S fuel)) - 1) with (Z.succ (Z.of_nat (S fuel) - 1))
        in Hd by lia.
      rewrite Z.pow_succ_r in Hd by lia.
      assert (2 * mid >= low + 2 ^ 30 - 1).
      { unfold mid.
        pose proof (Z.div_mod (low + 2 ^ 30) 2 ltac:(lia)).
        pose proof (Z.mod_pos_bound (low + 2 ^ 30) 2 ltac:(lia)). lia. }
      lia.
Qed.

(** C9 (as stated, false): the slice [0, 1, ..., 2^30] is strictly
    ascending and holds 2^30 at position 2^30, but the search for it reads
    outside the array (the midpoint of [low = high = 2^30] is computed as
    -2^30) and never returns the position. *)
Lemma bsearch_long_slice_fails :
  ascending (columns_upto (2 ^ 30 + 1)) 0 (2 ^ 30 + 1) /\
  at_ 0 (columns_upto (2 ^ 30 + 1)) (2 ^ 30) = 2 ^ 30 /\
  bsearch 32 (columns_upto (2 ^ 30 + 1)) 0 (2 ^ 30 + 1) (2 ^ 30) = Fault /\
  forall fuel k,
    bsearch fuel (columns_upto (2 ^ 30 + 1)) 0 (2 ^ 30 + 1) (2 ^ 30) <> Done k.
Proof.
  pose proof (@columns_upto_len (2 ^ 30 + 1) ltac:(lia)) as Hlen.
  assert (Hat : forall i, 0 <= i <= 2 ^ 30 ->
                          at_ 0 (columns_upto (2 ^ 30 + 1)) i = i)
    by (intros i Hi; apply columns_upto_at; lia).
  pose proof (@columns_upto_ascending (2 ^ 30 + 1)) as Hasc.
  revert Hlen Hat Hasc.
  generalize (columns_upto (2 ^ 30 + 1)); intros a Hlen Hat Hasc.
  assert (E : bsearch 32 a 0 (2 ^ 30 + 1) (2 ^ 30) = Fault).
  { unfold bsearch.
    replace (2 ^ 30 + 1 - 1) with (2 ^ 30) by lia.
    apply (@bsearch_loop_overflows a Hlen Hat); [lia |].
    change (2 ^ (Z.of_nat 32 - 1)) with (2 ^ 31); lia. }
  split; [exact Hasc |]; split; [apply Hat; lia |]; split; [exact E |].
  apply (@fault_never_done _ (fun f => bsearch f a 0 (2 ^ 30 + 1) (2 ^ 30)) 32);
    [| exact E].
  intros f f' Hf; apply bsearch_refines; exact Hf.
Qed.

(** ** Runs that return *)

Lemma bind_done {A B : Type} (m : outcome A) (k : A -> outcome B) (b : B) :
  bind m k = Done b -> exists a, m = Done a /\ k a = Done b.
Proof. destruct m; simpl; intros H; try discriminate; eauto. Qed.

(** Takes a run [H : ... = Done _] apart, one step at a time. *)
Ltac run_inv H :=
  repeat match type of H with
         | bind _ _ = Done _ =>
             let a := fresh "a" in
             let Ha := fresh "Ha" in
             apply bind_done in H; destruct H as (a & Ha & H)
         | (let '(_, _) := ?p in _) = Done _ => destruct p
         | (match ?p with (_, _) => _ end) = Done _ => destruct p
         | (if ?b then _ else _) = Done _ =>
             let E := fresh "E" in destruct b eqn:E
         | Done _ = Done _ => injection H as H
         | Fault = Done _ => discriminate H
         | Timeout = Done _ => discriminate H
         end.

Lemma while_invariant {S : Type} (P : S -> Prop) (b : S -> outcome (ctl S)) :
  (forall s r, P s -> b s = Done r -> P (ctl_state r)) ->
  forall fuel s s', P s -> while fuel b s = Done s' -> P s'.
Proof.
  intros Hb; induction fuel as [| fuel IH]; intros s s' Hs H; simpl in H.
  - discriminate.
  - apply bind_done in H; destruct H as (r & Hr & H).
    pose proof (Hb _ _ Hs Hr) as Hn.
    destruct r as [s1 | s1]; simpl in Hn.
    + eapply IH; eassumption.
    + injection H as <-; exact Hn.
Qed.

(** ** Augmenting row reduction leaves the row duals alone *)

Section RowDuals.

Variable F : arith.

Lemma arr_row_keeps_u n (g : graph F) st st' :
  arr_row n g st = Done st' -> u (st_mem st') = u (st_mem st).
Proof.
  unfold arr_row; intros H.
  run_inv H; subst st'; reflexivity.
Qed.

Lemma arr_body_keeps_u n (g : graph F) st r :
  arr_body n g st = Done r -> u (st_mem (ctl_state r)) = u (st_mem st).
Proof.
  unfold arr_body; intros H.
  destruct (st_k st <? len (st_ii st)).
  - apply bind_done in H; destruct H as (st' & Hrow & H).
    injection H as <-; simpl.
    eapply arr_row_keeps_u; eassumption.
  - injection H as <-; reflexivity.
Qed.

(** C10: whatever the input, when augmenting row reduction returns, the
    array [u] is the one it received. *)
Theorem augmenting_row_reduction_keeps_u fuel n (g : graph F) ii m m' ii' fr :
  augmenting_row_reduction fuel n g ii m = Done (m', ii', fr) ->
  u m' = u m.
Proof.
  unfold augmenting_row_reduction, arr_init; intros H.
  run_inv H.
  match goal with
  | H0 : bind (np_max _) _ = Done _ |- _ => run_inv H0
  end.
  subst.
  match goal with
  | Hw : while _ _ _ = Done _ |- _ =>
      apply (while_invariant (fun st => u (st_mem st) = u m)) in Hw
  end.
  - assumption.
  - intros s r Hs Hr.
    rewrite (arr_body_keeps_u _ _ _ Hr); exact Hs.
  - reflexivity.
Qed.

End RowDuals.

(** On [pair2] from the standard initial state the prices move and the
    row duals stay. *)
Lemma augmenting_row_reduction_keeps_u_witness :
  augmenting_row_reduction 64 2 pair2 (rows 2) (initial exact 2)
  = Done ({| x := [1; 0]; y := [1; 0];
             u := [Fin 0; Fin 0]; v := [Fin (-8); Fin (-4)] |}, [0; 0], []) /\
  [Fin 0; Fin 0] = u (initial exact 2).
Proof.
  split; [vm_compute; reflexivity |].
  apply (@augmenting_row_reduction_keeps_u exact 64 2 pair2 (rows 2)
           (initial exact 2)
           {| x := [1; 0]; y := [1; 0];
              u := [Fin 0; Fin 0]; v := [Fin (-8); Fin (-4)] |}
           [0; 0] []).
  vm_compute; reflexivity.
Defined.

(** ** Determinism

    A run in which no local is read before it is assigned is followed
    step by step by every run of the same routine on the same arrays,
    whatever its locals held on entry: the two runs go through states that
    differ at most in locals that the first has no value for. *)

Lemma for_from_sim {S : Type} (R : S -> S -> Prop)
      (body : Z -> S -> outcome S) :
  (forall j s s' t, R s s' -> body j s = Done t ->
                    exists t', body j s' = Done t' /\ R t t') ->
  forall cnt j s s' r,
    R s s' ->
    for_from cnt j (fun j s => t <- body j s ;; Done (Next t)) s = Done r ->
    exists t',
      for_from cnt j (fun j s => t <- body j s ;; Done (Next t)) s'
      = Done (Next t') /\ R (ctl_state r) t'.
Proof.
  intros Hbody; induction cnt as [| cnt IH]; intros j s s' r HR H; simpl in H.
  - injection H as <-; exists s'; split; [reflexivity | exact HR].
  - apply bind_done in H; destruct H as (r1 & E1 & H).
    apply bind_done in E1; destruct E1 as (t & E1 & E2).
    injection E2 as <-.
    destruct (Hbody _ _ _ _ HR E1) as (t' & E1' & HR').
    simpl; rewrite E1'; simpl.
    eapply IH; eassumption.
Qed.

Lemma for_range_sim {S : Type} (R : S -> S -> Prop)
      (body : Z -> S -> outcome S) (lo hi : Z) (s s' t : S) :
  (forall j s s' t, R s s' -> body j s = Done t ->
                    exists t', body j s' = Done t' /\ R t t') ->
  R s s' -> for_range lo hi body s = Done t ->
  exists t', for_range lo hi body s' = Done t' /\ R t t'.
Proof.
  intros Hbody HR H; unfold for_range, for_break in *.
  apply bind_done in H; destruct H as (r & E & H).
  injection H as <-.
  destruct (@for_from_sim _ R body Hbody _ _ s s' r HR E) as (t' & E' & HR').
  exists t'; rewrite E'; split; [reflexivity | exact HR'].
Qed.

Lemma while_sim {S : Type} (R : S -> S -> Prop) (body : S -> outcome (ctl S)) :
  (forall s s' r, R s s' -> body s = Done r ->
                  exists r', body s' = Done r' /\
                             match r, r' with
                             | Next a, Next a' => R a a'
                             | Break a, Break a' => R a a'
                             | _, _ => False
                             end) ->
  forall fuel s s' t,
    R s s' -> while fuel body s = Done t ->
    exists t', while fuel body s' = Done t' /\ R t t'.
Proof.
  intros Hbody; induction fuel as [| fuel IH]; intros s s' t HR H; simpl in H.
  - discriminate.
  - apply bind_done in H; destruct H as (r & E & H).
    destruct (Hbody _ _ _ HR E) as (r' & E' & Hr).
    simpl; rewrite E'; simpl.
    destruct r as [a | a], r' as [a' | a']; try contradiction.
    + eapply IH; eassumption.
    + injection H as <-; exists a'; split; [reflexivity | exact Hr].
Qed.

Section StaleLocals.

Variable F : arith.

Lemma known_refl (o : option Z) : known o o.
Proof. intros a E; exact E. Qed.

Lemma known_none (o : option Z) : known None o.
Proof. intros a E; discriminate. Qed.

Lemma use_known (o o' : option Z) (a : Z) :
  known o o' -> use o = Done a -> use o' = Done a.
Proof.
  intros K H; destruct o as [b |]; simpl in H; [| discriminate].
  injection H as <-; rewrite (K b eq_refl); reflexivity.
Qed.

Lemma arr_scan_known (g : graph F) (m : mem F) off j (s s' t : scan2 F) :
  scan_known s s' -> arr_scan g m off j s = Done t ->
  exists t', arr_scan g m off j s' = Done t' /\ scan_known t t'.
Proof.
  intros (E1 & E2 & K1 & K2) H; unfold arr_scan in *.
  apply bind_done in H; destruct H as (jc & Hj & H); rewrite Hj; cbn [bind].
  apply bind_done in H; destruct H as (cv & Hc & H); rewrite Hc; cbn [bind].
  apply bind_done in H; destruct H as (vj & Hv & H); rewrite Hv; cbn [bind].
  cbv zeta in *; rewrite <- E1, <- E2.
  destruct (ltb F (sub F cv vj) (sc_u1 s)).
  - injection H as <-; eexists; split; [reflexivity |].
    repeat split; cbn; auto using known_refl.
  - destruct (ltb F (sub F cv vj) (sc_u2 s)).
    + injection H as <-; eexists; split; [reflexivity |].
      repeat split; cbn; auto using known_refl.
    + injection H as <-; eexists; split; [reflexivity |].
      repeat split; auto.
Qed.

(** One pass of the loop: the only reads of [j1] and [j2] are at lines
    227 and 231-232. *)
Lemma arr_row_known n (g : graph F) (st st' st1 : arr_state F) :
  state_known st st' -> arr_row n g st = Done st1 ->
  exists st1', arr_row n g st' = Done st1' /\ state_known st1 st1'.
Proof.
  intros (Em & Ei & Ef & En & Ek & K1 & K2) H.
  unfold arr_row in *; rewrite <- Em, <- Ei, <- Ef, <- En, <- Ek.
  apply bind_done in H; destruct H as (i & Hi & H); rewrite Hi; cbn [bind].
  apply bind_done in H; destruct H as (n_j & Hn & H); rewrite Hn; cbn [bind].
  apply bind_done in H; destruct H as (off & Ho & H); rewrite Ho; cbn [bind].
  apply bind_done in H; destruct H as (s & Hs & H).
  destruct (@for_range_sim _ (@scan_known F) (arr_scan g (st_mem st) off) 0 n_j
              {| sc_u1 := inf F; sc_u2 := inf F;
                 sc_j1 := st_j1 st; sc_j2 := st_j2 st |}
              {| sc_u1 := inf F; sc_u2 := inf F;
                 sc_j1 := st_j1 st'; sc_j2 := st_j2 st' |} s)
    as (s' & Hs' & (E1 & E2 & S1 & S2)).
  { intros j a a' t; apply arr_scan_known. }
  { repeat split; assumption. }
  { exact Hs. }
  rewrite Hs'; cbn [bind].
  rewrite <- E1, <- E2.
  apply bind_done in H; destruct H as (j1 & Hj1 & H).
  rewrite (@use_known _ _ _ S1 Hj1); cbn [bind].
  apply bind_done in H; destruct H as (i1 & Hi1 & H); rewrite Hi1; cbn [bind].
  apply bind_done in H; destruct H as ([[vv jc] io] & Hsel & H).
  assert (Hsel' :
    (if ltb F (sc_u1 s) (sc_u2 s)
     then vj1 <- rd (v (st_mem st)) j1 ;;
          vv <- wr (v (st_mem st)) j1 (add F (sub F vj1 (sc_u2 s)) (sc_u1 s)) ;;
          Done (vv, j1, i1)
     else if negb (i1 =? n)
          then j2 <- use (sc_j2 s') ;;
               i2 <- rd (y (st_mem st)) j2 ;; Done (v (st_mem st), j2, i2)
          else Done (v (st_mem st), j1, i1)) = Done (vv, jc, io)).
  { destruct (ltb F (sc_u1 s) (sc_u2 s)); [exact Hsel |].
    destruct (negb (i1 =? n)); [| exact Hsel].
    apply bind_done in Hsel; destruct Hsel as (j2 & Hj2 & Hsel).
    rewrite (@use_known _ _ _ S2 Hj2); exact Hsel. }
  rewrite Hsel'; cbn [bind].
  apply bind_done in H; destruct H as ([[[ii k] free] nfree] & Hq & H).
  rewrite Hq; cbn [bind].
  apply bind_done in H; destruct H as (xx & Hx & H); rewrite Hx; cbn [bind].
  apply bind_done in H; destruct H as (yy & Hy & H); rewrite Hy; cbn [bind].
  injection H as <-.
  eexists; split; [reflexivity |].
  repeat split; cbn; auto using known_refl.
Qed.

Lemma arr_body_known n (g : graph F) (st st' : arr_state F) r :
  state_known st st' -> arr_body n g st = Done r ->
  exists r', arr_body n g st' = Done r' /\
             match r, r' with
             | Next a, Next a' => state_known a a'
             | Break a, Break a' => state_known a a'
             | _, _ => False
             end.
Proof.
  intros K H; unfold arr_body in *.
  destruct K as (Em & Ei & Ef & En & Ek & K1 & K2).
  rewrite <- Ei, <- Ek.
  destruct (st_k st <? len (st_ii st)).
  - apply bind_done in H; destruct H as (st1 & Hrow & H).
    injection H as <-.
    destruct (@arr_row_known n g st st' st1) as (st1' & E' & K');
      [repeat split; assumption | exact Hrow |].
    rewrite E'; eexists; split; [reflexivity | exact K'].
  - injection H as <-; eexists; split; [reflexivity |].
    repeat split; assumption.
Qed.

(** The result of a run that reads no never-assigned local is the result
    of the run entered with [a] and [b] in the two locals. *)
Lemma augmenting_row_reduction_known (a b : option Z) fuel n (g : graph F)
      ii (m : mem F) r :
  augmenting_row_reduction fuel n g ii m = Done r ->
  augmenting_row_reduction_with a b fuel n g ii m = Done r.
Proof.
  unfold augmenting_row_reduction, augmenting_row_reduction_with,
    arr_init, arr_init_with; intros H.
  apply bind_done in H; destruct H as (st0 & E0 & H).
  apply bind_done in E0; destruct E0 as (top & Etop & E0).
  injection E0 as <-.
  rewrite Etop; cbn [bind].
  apply bind_done in H; destruct H as (st & Ew & H).
  injection H as <-.
  assert (K0 : state_known
                 {| st_mem := m; st_ii := ii; st_free := zeros (top + 1);
                    st_nfree := 0; st_k := 0; st_j1 := None; st_j2 := None |}
                 {| st_mem := m; st_ii := ii; st_free := zeros (top + 1);
                    st_nfree := 0; st_k := 0; st_j1 := a; st_j2 := b |})
    by (repeat split; apply known_none).
  destruct (@while_sim _ (@state_known F) (arr_body n g) (@arr_body_known n g)
              fuel _ _ st K0 Ew)
    as (st' & Ew' & (Em & Ei & Ef & En & Ek & _)).
  rewrite Ew'; cbn [bind].
  rewrite Em, Ei, Ef, En; reflexivity.
Qed.

Lemma run_phases_known (a b : option Z) fuel n (g : graph F)
      assigned unassigned (m : mem F) r :
  run_phases fuel n g assigned unassigned m = Done r ->
  run_phases_with a b fuel n g assigned unassigned m = Done r.
Proof.
  unfold run_phases, run_phases_with; intros H.
  apply bind_done in H; destruct H as (m1 & E1 & H); rewrite E1; cbn [bind].
  apply bind_done in H; destruct H as ([[m2 q] fr] & E2 & H).
  rewrite (@augmenting_row_reduction_known a b _ _ _ _ _ _ E2); cbn [bind].
  exact H.
Qed.

Lemma augmenting_row_reduction_with_refines a b f f' n (g : graph F) ii m :
  (f <= f')%nat ->
  refines (augmenting_row_reduction_with a b f n g ii m)
          (augmenting_row_reduction_with a b f' n g ii m).
Proof.
  intros Hle; unfold augmenting_row_reduction_with; repeat refines_step.
Qed.

Lemma run_phases_with_refines a b f f' n (g : graph F) assigned unassigned m :
  (f <= f')%nat ->
  refines (run_phases_with a b f n g assigned unassigned m)
          (run_phases_with a b f' n g assigned unassigned m).
Proof.
  intros Hle; unfold run_phases_with; repeat refines_step.
  - apply augmenting_row_reduction_with_refines; assumption.
  - apply augment_refines; assumption.
Qed.

(** C8 (amended): on an input on which the run reads no local before
    assigning it and stays inside its arrays ([run_phases] returns [r]
    for some fuel), any two runs give the same result [r], bit for bit:
    whatever the locals [j1] and [j2] hold on entry of each run, and
    whatever fuel each run is given, as long as it does not stop for lack
    of it. *)
Theorem run_phases_deterministic n (g : graph F) assigned unassigned
        (m : mem F) (f0 : nat) r :
  run_phases f0 n g assigned unassigned m = Done r ->
  forall (a b a' b' : option Z) (f f' : nat),
    run_phases_with a b f n g assigned unassigned m <> Timeout ->
    run_phases_with a' b' f' n g assigned unassigned m <> Timeout ->
    run_phases_with a b f n g assigned unassigned m = Done r /\
    run_phases_with a' b' f' n g assigned unassigned m = Done r.
Proof.
  intros H0 a b a' b' f f' Hf Hf'.
  assert (Hany : forall c d k,
             run_phases_with c d k n g assigned unassigned m <> Timeout ->
             run_phases_with c d k n g assigned unassigned m = Done r).
  { intros c d k Hk.
    rewrite <- (@run_phases_known c d _ _ _ _ _ _ _ H0).
    apply (@refines_agree _ (fun k => run_phases_with c d k n g assigned
                                                      unassigned m));
      [intros; apply run_phases_with_refines; assumption | exact Hk |].
    rewrite (@run_phases_known c d _ _ _ _ _ _ _ H0); discriminate. }
  split; apply Hany; assumption.
Qed.

End StaleLocals.

Lemma run_phases_deterministic_witness :
  run_phases_with (Some 7) (Some 9) 90 4 detour4 [] (rows 4) (initial exact 4)
  = Done ({| x := [1; 0; 3; 2]; y := [1; 0; 3; 2];
             u := [Fin 3; Fin 1; Fin 3; Fin 3];
             v := [Fin 0; Fin 0; Fin (-2); Fin (-2)] |}, [0]) /\
  run_phases_with None (Some (-1)) 64 4 detour4 [] (rows 4) (initial exact 4)
  = Done ({| x := [1; 0; 3; 2]; y := [1; 0; 3; 2];
             u := [Fin 3; Fin 1; Fin 3; Fin 3];
             v := [Fin 0; Fin 0; Fin (-2); Fin (-2)] |}, [0]).
Proof.
  apply (@run_phases_deterministic exact 4 detour4 [] (rows 4)
           (initial exact 4) 64).
  - vm_compute; reflexivity.
  - vm_compute; discriminate.
  - vm_compute; discriminate.
Defined.

(** C8 (as stated, false): on [gap2], whose row 0 has no column, line 227
    reads [j1] before any assignment.  Two runs on the same arrays, one
    entered with 0 in the two locals and one with 1, both return, with
    different assignments. *)
Lemma run_phases_stale_locals_differ :
  run_phases_with (Some 0) (Some 0) 64 2 gap2 [] (rows 2) (initial ieee 2)
  = Done ({| x := [0; 1]; y := [0; 1]; u := [1; 1]%float;
             v := [0; 0]%float |}, []) /\
  run_phases_with (Some 1) (Some 1) 64 2 gap2 [] (rows 2) (initial ieee 2)
  = Done ({| x := [1; 0]; y := [1; 0]; u := [1; 1]%float;
             v := [0; 0]%float |}, []) /\
  ~ (forall a b a' b',
        run_phases_with a b 64 2 gap2 [] (rows 2) (initial ieee 2)
        = run_phases_with a' b' 64 2 gap2 [] (rows 2) (initial ieee 2)).
Proof.
  split; [vm_compute; reflexivity |].
  split; [vm_compute; reflexivity |].
  intros H; specialize (H (Some 0) (Some 0) (Some 1) (Some 1)).
  vm_compute in H; discriminate.
Qed.

(** ** Reduction transfer on a row with a single column *)

(** C7 (as stated, false): on the one-row instance [single1] the call
    does not leave [u] and [v] as they were. *)
Lemma reduction_transfer_single1_not_noop :
  ~ (exists m', reduction_transfer single1 [0] single1_mem = Done m' /\
                u m' = u single1_mem /\ v m' = v single1_mem).
Proof.
  intros (m' & H & Hu & _).
  vm_compute in H; injection H as <-.
  vm_compute in Hu; discriminate.
Qed.

Section SingleColumn.

Variable F : arith.

(** C7 (amended): for a row [i] whose only feasible column, stored at the
    start of the column array, is its assigned column [x[i]], the call
    returns; it writes [+inf] to [u[i]] and [v[x[i]] - (inf - u[i])] to
    [v[x[i]]], and nothing else. *)
Theorem reduction_transfer_single_column (g : graph F) (m : mem F) (i j1 : Z) :
  rd (x m) i = Done j1 ->
  rd (count g) i = Done 1 ->
  rd (idx g) i = Done 0 ->
  rd (jj g) 0 = Done j1 ->
  0 <= j1 < len (v m) ->
  0 <= i < len (u m) ->
  reduction_transfer g [i] m
  = Done {| x := x m; y := y m;
            u := upd (u m) (Z.to_nat i) (inf F);
            v := upd (v m) (Z.to_nat j1)
                     (sub F (at_ (zero F) (v m) j1)
                            (sub F (inf F) (at_ (zero F) (u m) i))) |}.
Proof.
  intros Hx Hc Hi Hj Hv Hu.
  unfold reduction_transfer, for_each, rt_row.
  rewrite Hx, Hc, Hi; simpl.
  unfold for_range, for_break; simpl.
  unfold rt_scan; rewrite Hj; simpl.
  rewrite Z.eqb_refl; simpl.
  rewrite (rd_in_range (zero F)) by assumption; simpl.
  rewrite (rd_in_range (zero F)) by assumption; simpl.
  rewrite wr_in_range by assumption; simpl.
  rewrite wr_in_range by assumption; simpl.
  reflexivity.
Qed.

End SingleColumn.

Lemma reduction_transfer_single_column_witness :
  reduction_transfer single1 [0] single1_mem
  = Done {| x := [0]; y := [0]; u := [PInf]; v := [NInf] |}.
Proof.
  apply (@reduction_transfer_single_column exact single1 single1_mem 0 0).
  - reflexivity.
  - reflexivity.
  - reflexivity.
  - reflexivity.
  - vm_compute; split; [discriminate | reflexivity].
  - vm_compute; split; [discriminate | reflexivity].
Defined.

(** ** The row step of augmenting row reduction *)
















Lemma add_fin (a b : Z) : add exact (Fin a) (Fin b) = Fin (a + b).
Proof. reflexivity. Qed.

Lemma ltb_fin (a b : Z) : ltb exact (Fin a) (Fin b) = (a <? b).
Proof. reflexivity. Qed.


Lemma firstn_upd_snoc {A : Type} (a : list A) (k : nat) (w : A) :
  (k < length a)%nat -> firstn (S k) (upd a k w) = firstn k a ++ [w].
Proof.
  revert k; induction a as [| h t IH]; intros k Hk; simpl in Hk; [lia |].
  destruct k as [| k]; simpl; [reflexivity |].
  rewrite <- (IH k) by lia; reflexivity.
Qed.


(** ** More on arrays *)

Lemma wr_done {A : Type} (a a' : list A) (i : Z) (w : A) :
  wr a i w = Done a' -> 0 <= i < len a /\ a' = upd a (Z.to_nat i) w.
Proof.
  unfold wr.
  destruct (Z.leb_spec 0 i) as [Hlo | Hlo];
    destruct (Z.ltb_spec i (len a)) as [Hhi | Hhi]; simpl;
    intros E; try discriminate.
  injection E as <-; split; [lia | reflexivity].
Qed.

Lemma nth_error_upd_other {A : Type} (a : list A) (k k' : nat) (w : A) :
  k <> k' -> nth_error (upd a k w) k' = nth_error a k'.
Proof.
  revert k k'; induction a as [| h t IH]; intros [| k] [| k'] Hn; simpl;
    try reflexivity; try congruence.
  apply IH; congruence.
Qed.

Lemma nth_error_upd_same {A : Type} (a : list A) (k : nat) (w : A) :
  (k < length a)%nat -> nth_error (upd a k w) k = Some w.
Proof.
  revert k; induction a as [| h t IH]; intros [| k] Hk; simpl in *;
    try lia; try reflexivity.
  apply IH; lia.
Qed.

Lemma rd_upd_other {A : Type} (a : list A) (i r : Z) (w : A) :
  0 <= i -> r <> i -> rd (upd a (Z.to_nat i) w) r = rd a r.
Proof.
  intros Hi Hn; unfold rd.
  destruct (Z.ltb_spec r 0); [reflexivity |].
  rewrite nth_error_upd_other by lia; reflexivity.
Qed.

Lemma rd_upd_same {A : Type} (a : list A) (i : Z) (w : A) :
  0 <= i < len a -> rd (upd a (Z.to_nat i) w) i = Done w.
Proof.
  intros Hi; unfold rd, len in *.
  destruct (Z.ltb_spec i 0); [lia |].
  rewrite nth_error_upd_same by lia; reflexivity.
Qed.

(** ** One pass of augmenting row reduction, whatever the row *)

Section PassShape.

Variable F : arith.

Lemma arr_row_shape (n : Z) (g : graph F) (st st' : arr_state F) :
  arr_row n g st = Done st' ->
  let m := st_mem st in
  exists i n_j off s jc io,
    rd (st_ii st) (st_k st) = Done i /\
    rd (count g) i = Done n_j /\ rd (idx g) i = Done off /\
    for_range 0 n_j (arr_scan g m off)
              {| sc_u1 := inf F; sc_u2 := inf F;
                 sc_j1 := st_j1 st; sc_j2 := st_j2 st |} = Done s /\
    rd (y m) jc = Done io /\
    0 <= i < len (x m) /\ 0 <= jc < len (y m) /\
    x (st_mem st') = upd (x m) (Z.to_nat i) jc /\
    y (st_mem st') = upd (y m) (Z.to_nat jc) i /\
    u (st_mem st') = u m /\
    ((ltb F (sc_u1 s) (sc_u2 s) = true /\ sc_j1 s = Some jc /\
      exists vj, rd (v m) jc = Done vj /\ 0 <= jc < len (v m) /\
                 v (st_mem st')
                 = upd (v m) (Z.to_nat jc)
                       (add F (sub F vj (sc_u2 s)) (sc_u1 s))) \/
     (ltb F (sc_u1 s) (sc_u2 s) = false /\ v (st_mem st') = v m)) /\
    ((io <> n /\ ltb F (sc_u1 s) (sc_u2 s) = true /\
      st_ii st' = upd (st_ii st) (Z.to_nat (st_k st)) io /\
      st_k st' = st_k st /\
      st_free st' = st_free st /\ st_nfree st' = st_nfree st) \/
     (io <> n /\ ltb F (sc_u1 s) (sc_u2 s) = false /\
      st_ii st' = st_ii st /\ st_k st' = st_k st + 1 /\
      0 <= st_nfree st < len (st_free st) /\
      st_free st' = upd (st_free st) (Z.to_nat (st_nfree st)) io /\
      st_nfree st' = st_nfree st + 1) \/
     (io = n /\ st_ii st' = st_ii st /\ st_k st' = st_k st + 1 /\
      st_free st' = st_free st /\ st_nfree st' = st_nfree st)).
Proof.
  intros H m; unfold arr_row in H; fold m in H.
  apply bind_done in H; destruct H as (i & Hi & H).
  apply bind_done in H; destruct H as (n_j & Hn & H).
  apply bind_done in H; destruct H as (off & Ho & H).
  apply bind_done in H; destruct H as (s & Hs & H).
  apply bind_done in H; destruct H as (j1 & Hj1 & H).
  apply bind_done in H; destruct H as (i1 & Hi1 & H).
  apply bind_done in H; destruct H as ([[vv jc] io] & Hsel & H).
  apply bind_done in H; destruct H as ([[[ii k] free] nfree] & Hq & H).
  apply bind_done in H; destruct H as (xx & Hxx & H).
  apply bind_done in H; destruct H as (yy & Hyy & H).
  injection H as <-; cbn [st_mem st_ii st_k st_free st_nfree x y u v].
  apply wr_done in Hxx; destruct Hxx as (Hxr & ->).
  apply wr_done in Hyy; destruct Hyy as (Hyr & ->).
  destruct (sc_j1 s) as [j1' |] eqn:Ej1; simpl in Hj1; [| discriminate].
  injection Hj1 as ->.
  exists i, n_j, off, s, jc, io.
  assert (Hsel' :
    rd (y m) jc = Done io /\
    ((ltb F (sc_u1 s) (sc_u2 s) = true /\ Some j1 = Some jc /\
      exists vj, rd (v m) jc = Done vj /\ 0 <= jc < len (v m) /\
                 vv = upd (v m) (Z.to_nat jc)
                          (add F (sub F vj (sc_u2 s)) (sc_u1 s))) \/
     (ltb F (sc_u1 s) (sc_u2 s) = false /\ vv = v m))).
  { destruct (ltb F (sc_u1 s) (sc_u2 s)) eqn:El.
    - apply bind_done in Hsel; destruct Hsel as (vj & Hvj & Hsel).
      apply bind_done in Hsel; destruct Hsel as (vv' & Hvv & Hsel).
      injection Hsel as <- <- <-.
      apply wr_done in Hvv; destruct Hvv as (Hvr & ->).
      split; [exact Hi1 |]; left; repeat split; eauto.
    - destruct (negb (i1 =? n)).
      + apply bind_done in Hsel; destruct Hsel as (j2 & Hj2 & Hsel).
        apply bind_done in Hsel; destruct Hsel as (i2 & Hi2 & Hsel).
        injection Hsel as <- <- <-.
        split; [exact Hi2 |]; right; auto.
      + injection Hsel as <- <- <-.
        split; [exact Hi1 |]; right; auto. }
  destruct Hsel' as (Hio & Hv).
  repeat (split; [first [eassumption | reflexivity | lia] |]).
  split; [rewrite Ej1; exact Hv |].
  destruct (Z.eqb_spec io n) as [E | NE]; cbn [negb] in Hq.
  - injection Hq as <- <- <- <-; right; right; auto.
  - destruct (ltb F (sc_u1 s) (sc_u2 s)) eqn:El.
    + apply bind_done in Hq; destruct Hq as (ii1 & Hw & Hq).
      injection Hq as <- <- <- <-.
      apply wr_done in Hw; destruct Hw as (Hwr & ->).
      left; repeat split; auto; try lia.
      f_equal; f_equal; lia.
    + apply bind_done in Hq; destruct Hq as (fr1 & Hw & Hq).
      injection Hq as <- <- <- <-.
      apply wr_done in Hw; destruct Hw as (Hwr & ->).
      right; left; repeat split; auto; lia.
Qed.

End PassShape.



Section RowStep.

Variable F : arith.
Variables (n : Z) (g : graph F) (st : arr_state F).
Variables (i cnt off : Z) (rk : Z -> Z).

Local Abbreviation col := (column g off).
Local Abbreviation rcost := (reduced g (st_mem st) off).
Local Abbreviation sinv := (scan_inv g (st_mem st) off rk).

Hypothesis Hrow : rd (st_ii st) (st_k st) = Done i.
Hypothesis Hcnt : rd (count g) i = Done cnt.
Hypothesis Hoff : rd (idx g) i = Done off.
Hypothesis Hoff0 : 0 <= off.
Hypothesis Hjj : off + cnt <= len (jj g).
Hypothesis Hc : off + cnt <= len (c g).
Hypothesis Hcol : forall p, 0 <= p < cnt -> 0 <= col p < len (v (st_mem st)).
Hypothesis Hy : len (y (st_mem st)) = len (v (st_mem st)).
Hypothesis Hrk : ranked g (st_mem st) off cnt rk.






End RowStep.



(** The one-row instance in binary64: the same call leaves [+inf] in [u]
    and [-inf] in [v]. *)
Example reduction_transfer_single1_ieee :
  reduction_transfer single1_ieee [0] single1_mem_ieee
  = Done {| x := [0]; y := [0];
            u := [PrimFloat.infinity]; v := [PrimFloat.neg_infinity] |}.
Proof. vm_compute; reflexivity. Qed.

(** * Further properties *)

(** ** Binary search on any slice *)

Lemma bsearch_loop_returns a off count valu :
  0 <= off -> off + count <= len a -> count <= 2 ^ 30 ->
  forall fuel low high,
    0 <= low -> high < count ->
    (Z.to_nat (high - low + 1) < fuel)%nat ->
    exists k,
      bsearch_loop fuel a off valu low high = Done k /\
      (k = 0 \/ (0 <= k < count /\ at_ 0 a (off + k) = valu)).
Proof.
  intros Hoff Hlen Hcnt.
  induction fuel as [| fuel IH]; intros low high Hlow Hhigh Hfuel; [lia |].
  simpl.
  destruct (Z.leb_spec low high) as [Hle | Hgt].
  - rewrite wrap_int_small by lia.
    set (mid := (low + high) / 2).
    assert (Hmid : low <= mid <= high).
    { unfold mid; split.
      - apply Z.div_le_lower_bound; lia.
      - apply Z.div_le_upper_bound; lia. }
    rewrite (rd_in_range 0) by lia; simpl.
    destruct (Z.eqb_spec valu (at_ 0 a (off + mid))) as [E | NE].
    + exists mid; split; [reflexivity |].
      right; split; [lia | congruence].
    + destruct (valu >? at_ 0 a (off + mid)); apply IH; lia.
  - exists 0; split; [reflexivity | left; reflexivity].
Qed.

(** On any slice that lies inside the array and has at most 2^30
    entries, sorted or not, [bsearch] returns: the result is 0 or a position
    of the slice that holds the value, and it is 0 when the value is not in
    the slice (so 0 alone does not tell a hit at the first position from a
    miss). *)
Theorem bsearch_returns a off count valu fuel :
  0 <= off -> off + count <= len a -> count <= 2 ^ 30 ->
  (Z.to_nat count < fuel)%nat ->
  exists k,
    bsearch fuel a off count valu = Done k /\
    (k = 0 \/ (0 <= k < count /\ at_ 0 a (off + k) = valu)) /\
    ((forall p, 0 <= p < count -> at_ 0 a (off + p) <> valu) -> k = 0).
Proof.
  intros Hoff Hlen Hcnt Hfuel.
  destruct (@bsearch_loop_returns a off count valu Hoff Hlen Hcnt
              fuel 0 (count - 1)) as (k & E & Hk); [lia | lia | lia |].
  exists k; split; [exact E |]; split; [exact Hk |].
  intros Habs; destruct Hk as [-> | (Hr & Hhit)]; [reflexivity |].
  destruct (Habs k Hr Hhit).
Qed.

Lemma bsearch_returns_witness :
  exists k,
    bsearch 4 [7; 5; 0; 9] 1 3 6 = Done k /\
    (k = 0 \/ (0 <= k < 3 /\ at_ 0 [7; 5; 0; 9] (1 + k) = 6)) /\
    ((forall p, 0 <= p < 3 -> at_ 0 [7; 5; 0; 9] (1 + p) <> 6) -> k = 0).
Proof.
  apply (@bsearch_returns [7; 5; 0; 9] 1 3 6 4).
  - lia.
  - vm_compute; discriminate.
  - vm_compute; discriminate.
  - vm_compute; lia.
Defined.

(** ** What reduction transfer writes *)

Section TransferFrame.

Variable F : arith.

Lemma rt_row_writes (g : graph F) (i : Z) (m m' : mem F) :
  rt_row g i m = Done m' ->
  exists j1 mu vj1 ui,
    rd (x m) i = Done j1 /\ rd (v m) j1 = Done vj1 /\ rd (u m) i = Done ui /\
    0 <= i < len (u m) /\ 0 <= j1 < len (v m) /\
    m' = {| x := x m; y := y m;
            u := upd (u m) (Z.to_nat i) mu;
            v := upd (v m) (Z.to_nat j1) (sub F vj1 (sub F mu ui)) |}.
Proof.
  unfold rt_row; intros H.
  run_inv H.
  repeat match goal with
         | Hw : wr _ _ _ = Done _ |- _ =>
             apply wr_done in Hw; destruct Hw as (? & ->)
         end.
  subst m'; unfold set_u, set_v; simpl.
  eexists _, _, _, _; repeat split; eauto; lia.
Qed.

(** [reduction_transfer] writes nothing but [u] at the rows it is given
    and [v] at the columns those rows are assigned to: [x], [y], the duals
    of the other rows and the prices of the other columns are as before. *)
Theorem reduction_transfer_frame (g : graph F) (ii : list Z) :
  forall (m m' : mem F),
    reduction_transfer g ii m = Done m' ->
    x m' = x m /\ y m' = y m /\
    (forall r, ~ In r ii -> rd (u m') r = rd (u m) r) /\
    (forall j, (forall i, In i ii -> rd (x m) i <> Done j) ->
               rd (v m') j = rd (v m) j).
Proof.
  unfold reduction_transfer.
  induction ii as [| i ii IH]; intros m m' H; simpl in H.
  - injection H as <-; auto.
  - apply bind_done in H; destruct H as (m1 & Hrow & H).
    destruct (rt_row_writes _ _ _ Hrow)
      as (j1 & mu & vj1 & ui & Hx & Hv & Hu & Hi & Hj & ->).
    destruct (IH _ _ H) as (Ex & Ey & Eu & Ev); simpl in *.
    split; [exact Ex |]; split; [exact Ey |]; split.
    + intros r Hr; rewrite Eu by tauto.
      apply rd_upd_other; [lia | intros ->; apply Hr; left; reflexivity].
    + intros j Hj'; rewrite Ev by (intros i0 Hi0; apply Hj'; right; exact Hi0).
      apply rd_upd_other; [lia |].
      intros ->; apply (Hj' i); [left; reflexivity | exact Hx].
Qed.

End TransferFrame.

Lemma reduction_transfer_frame_witness :
  [0; 1; 2] = x diagonal3 /\ [0; 1; 2] = y diagonal3 /\
  (forall r, ~ In r [1] ->
             rd [Fin 0; Fin 5; Fin 0] r = rd (u diagonal3) r) /\
  (forall j, (forall i, In i [1] -> rd (x diagonal3) i <> Done j) ->
             rd [Fin 0; Fin (-5); Fin 0] j = rd (v diagonal3) j).
Proof.
  apply (@reduction_transfer_frame exact shifted3 [1] diagonal3
           {| x := [0; 1; 2]; y := [0; 1; 2];
              u := [Fin 0; Fin 5; Fin 0]; v := [Fin 0; Fin (-5); Fin 0] |}).
  vm_compute; reflexivity.
Defined.

(** ** Reduction transfer where the rows list the same columns *)

Lemma skipn_nth_cons {A : Type} (d : A) (a : list A) :
  forall o, (o < length a)%nat -> skipn o a = nth o a d :: skipn (S o) a.
Proof.
  induction a as [| h t IH]; intros o Ho; simpl in Ho; [lia |].
  destruct o as [| o]; [reflexivity |].
  simpl; apply IH; lia.
Qed.

Lemma slice_cons {A : Type} (d : A) (a : list A) (o : Z) (n : nat) :
  0 <= o < len a ->
  firstn (S n) (skipn (Z.to_nat o) a)
  = at_ d a o :: firstn n (skipn (Z.to_nat (o + 1)) a).
Proof.
  intros Ho; unfold len in Ho.
  rewrite (skipn_nth_cons d) by lia.
  replace (Z.to_nat (o + 1)) with (S (Z.to_nat o)) by lia.
  reflexivity.
Qed.

Section TransferDense.

Variable F : arith.
Variables (g : graph F) (m : mem F) (i j1 cnt off : Z).

Hypothesis Hx : rd (x m) i = Done j1.
Hypothesis Hcnt : rd (count g) i = Done cnt.
Hypothesis Hoff : rd (idx g) i = Done off.
Hypothesis Hoff0 : 0 <= off.
Hypothesis Hjj : off + cnt <= len (jj g).
Hypothesis Hc : off + cnt <= len (c g).
Hypothesis Hsame :
  forall k, 0 <= k < cnt -> at_ 0 (jj g) k = at_ 0 (jj g) (off + k).
Hypothesis Hcol :
  forall k, 0 <= k < cnt -> at_ 0 (jj g) (off + k) <> j1 ->
            0 <= at_ 0 (jj g) (off + k) < len (v m).

Lemma rt_scan_fold :
  forall (n : nat) (k : Z) (acc : F),
    0 <= k -> (n <= Z.to_nat (cnt - k))%nat ->
    for_from n k (fun j s => s' <- rt_scan g m j1 off j s ;; Done (Next s')) acc
    = Done (Next
        (fold_left
           (fun a p =>
              if fst p =? j1 then a
              else if ltb F (sub F (snd p) (at_ (zero F) (v m) (fst p))) a
                   then sub F (snd p) (at_ (zero F) (v m) (fst p)) else a)
           (combine (firstn n (skipn (Z.to_nat (off + k)) (jj g)))
                    (firstn n (skipn (Z.to_nat (off + k)) (c g))))
           acc)).
Proof.
  induction n as [| n IH]; intros k acc Hk Hn; [reflexivity |].
  rewrite (slice_cons 0) by lia.
  rewrite (slice_cons (zero F)) by lia.
  cbn [for_from combine fold_left fst snd].
  unfold rt_scan at 1.
  rewrite (rd_in_range 0) by lia; cbn [bind].
  rewrite Hsame by lia.
  destruct (Z.eqb_spec (at_ 0 (jj g) (off + k)) j1) as [E | NE]; cbn [negb bind].
  - rewrite IH by lia.
    replace (off + (k + 1)) with (off + k + 1) by lia; reflexivity.
  - rewrite (rd_in_range (zero F)) by lia; cbn [bind].
    rewrite (rd_in_range (zero F)) by (apply Hcol; [lia | exact NE]).
    cbn [bind]; cbv zeta.
    replace (off + k + 1) with (off + (k + 1)) by lia.
    destruct (ltb F _ acc); cbn [bind]; apply IH; lia.
Qed.

(** Where the first [count[i]] entries of the column array are the
    columns of row [i] (as on a dense graph), one pass of the loop of
    [reduction_transfer] returns, with [u[i]] the least [c[i,j] - v[j]] over
    the columns [j <> x[i]] of the row and [v[x[i]]] lowered by the change
    of [u[i]]. *)
Theorem rt_row_on_shared_columns :
  0 <= j1 < len (v m) -> 0 <= i < len (u m) ->
  rt_row g i m = Done (rt_row_claim g i m).
Proof.
  intros Hv Hu.
  destruct (rd_done 0 _ _ Hx) as (_ & Ex).
  destruct (rd_done 0 _ _ Hcnt) as (_ & Ecnt).
  destruct (rd_done 0 _ _ Hoff) as (_ & Eoff).
  unfold rt_row.
  rewrite Hx, Hcnt, Hoff; cbn [bind].
  unfold for_range, for_break.
  rewrite rt_scan_fold by lia; cbn [bind ctl_state].
  rewrite (rd_in_range (zero F)) by exact Hv; cbn [bind].
  rewrite (rd_in_range (zero F)) by exact Hu; cbn [bind].
  rewrite wr_in_range by exact Hv; cbn [bind].
  rewrite wr_in_range by exact Hu; cbn [bind].
  unfold rt_row_claim, u_min_claim, row_of, slice, set_u, set_v; simpl.
  rewrite Ex, Ecnt, Eoff.
  rewrite Z.sub_0_r, Z.add_0_r.
  reflexivity.
Qed.

End TransferDense.

Lemma rt_row_on_shared_columns_witness :
  rt_row dense3 1 {| x := [1; 0; 2]; y := [1; 0; 2];
                     u := [Fin 0; Fin 0; Fin 0];
                     v := [Fin 1; Fin 1; Fin 2] |}
  = Done {| x := [1; 0; 2]; y := [1; 0; 2];
            u := [Fin 0; Fin 1; Fin 0];
            v := [Fin 0; Fin 1; Fin 2] |}.
Proof.
  apply (@rt_row_on_shared_columns exact dense3
           {| x := [1; 0; 2]; y := [1; 0; 2];
              u := [Fin 0; Fin 0; Fin 0]; v := [Fin 1; Fin 1; Fin 2] |}
           1 0 3 3).
  - reflexivity.
  - reflexivity.
  - reflexivity.
  - lia.
  - vm_compute; discriminate.
  - vm_compute; discriminate.
  - intros k Hk; assert (Hc : k = 0 \/ k = 1 \/ k = 2) by lia.
    destruct Hc as [-> | [-> | ->]]; reflexivity.
  - intros k Hk _; assert (Hc : k = 0 \/ k = 1 \/ k = 2) by lia.
    destruct Hc as [-> | [-> | ->]];
      (vm_compute; split; [discriminate | reflexivity]).
  - vm_compute; split; [discriminate | reflexivity].
  - vm_compute; split; [discriminate | reflexivity].
Defined.

(** ** The row duals that augment leaves *)

Lemma for_from_done {S : Type} (P : Z -> S -> Prop)
      (body : Z -> S -> outcome S) (hi : Z) :
  (forall j s s', 0 <= j < hi -> P j s -> body j s = Done s' -> P (j + 1) s') ->
  forall cnt j s r,
    0 <= j -> j + Z.of_nat cnt = hi -> P j s ->
    for_from cnt j (fun j s => s' <- body j s ;; Done (Next s')) s = Done r ->
    P hi (ctl_state r).
Proof.
  intros Hbody; induction cnt as [| cnt IH]; intros j s r Hj Hhi HP H;
    simpl in H.
  - injection H as <-; simpl.
    replace hi with j by lia; exact HP.
  - apply bind_done in H; destruct H as (r1 & E1 & H).
    apply bind_done in E1; destruct E1 as (s1 & E1 & E2).
    injection E2 as <-.
    eapply IH; [| | | exact H]; [lia | lia |].
    eapply Hbody; [| exact HP | exact E1]; lia.
Qed.

Lemma for_range_done {S : Type} (P : Z -> S -> Prop)
      (body : Z -> S -> outcome S) (hi : Z) (s s' : S) :
  0 <= hi -> P 0 s ->
  (forall j s s', 0 <= j < hi -> P j s -> body j s = Done s' -> P (j + 1) s') ->
  for_range 0 hi body s = Done s' -> P hi s'.
Proof.
  intros Hhi HP Hbody H; unfold for_range, for_break in H.
  apply bind_done in H; destruct H as (r & E & H).
  injection H as <-.
  eapply for_from_done; [exact Hbody | | | exact HP | exact E]; lia.
Qed.

Section FinalDuals.

Variable F : arith.

Lemma ag_slack_loop fuel (g : graph F) (n : Z) (m0 m' : mem F) :
  for_range 0 n (ag_slack fuel g) m0 = Done m' ->
  x m' = x m0 /\ y m' = y m0 /\ v m' = v m0 /\
  forall i, 0 <= i < n -> dual_recomputed fuel g m' i.
Proof.
  intros H.
  destruct (Z.lt_ge_cases n 0) as [Hneg | Hpos].
  - unfold for_range, for_break in H.
    replace (Z.to_nat (n - 0)) with O in H by lia.
    simpl in H; injection H as <-.
    repeat split; intros; lia.
  - apply (for_range_done
             (fun j m1 =>
                x m1 = x m0 /\ y m1 = y m0 /\ v m1 = v m0 /\
                forall i, 0 <= i < j -> dual_recomputed fuel g m1 i))
      in H; [exact H | exact Hpos | |].
    + repeat split; intros; lia.
    + intros j m1 m2 Hj (Ex & Ey & Ev & Hd) Hs.
      unfold ag_slack in Hs; run_inv Hs.
      match goal with
      | Hw : wr _ _ _ = Done _ |- _ =>
          apply wr_done in Hw; destruct Hw as (Hr & ->)
      end.
      subst m2; unfold set_u; simpl.
      repeat split; auto.
      intros i Hi.
      destruct (Z.eq_dec i j) as [-> | Hn].
      * eexists _, _, _, _, _, _; simpl.
        repeat split; try eassumption.
        apply rd_upd_same; exact Hr.
      * destruct (Hd i ltac:(lia)) as (c0 & o0 & n0 & k0 & cv0 & vj0 & H1 & H2
                                        & H3 & H4 & H5 & H6 & H7).
        exists c0, o0, n0, k0, cv0, vj0; simpl.
        repeat split; try assumption.
        rewrite rd_upd_other by lia; exact H7.
Qed.

(** When [augment] returns, every row [i < n] has the dual that lines
    450-453 give it, [u[i] = c[idx[i] + bsearch(..)] - v[x[i]]], read in the
    state that is returned: no later pass of the loop at line 449 undoes an
    earlier one. *)
Theorem augment_recomputes_duals fuel n (g : graph F) ii (m m' : mem F) :
  augment fuel n g ii m = Done m' ->
  forall i, 0 <= i < n -> dual_recomputed fuel g m' i.
Proof.
  unfold augment; intros H.
  destruct (n <? 0); [discriminate |].
  apply bind_done in H; destruct H as (s & _ & H).
  apply ag_slack_loop in H; tauto.
Qed.

(** With an empty free list, [augment] leaves [x], [y] and [v] as they
    were: only [u] is written (lines 449-453). *)
Theorem augment_nothing_free fuel n (g : graph F) (m m' : mem F) :
  augment fuel n g [] m = Done m' ->
  x m' = x m /\ y m' = y m /\ v m' = v m.
Proof.
  unfold augment; intros H.
  destruct (n <? 0); [discriminate |].
  simpl in H.
  apply ag_slack_loop in H; tauto.
Qed.

End FinalDuals.

Lemma augment_recomputes_duals_witness :
  exists m',
    augment 64 4 detour4 [0] detour4_reduced = Done m' /\
    u m' = [Fin 3; Fin 1; Fin 3; Fin 3] /\
    dual_recomputed 64 detour4 m' 2.
Proof.
  eexists; split; [vm_compute; reflexivity |].
  split; [reflexivity |].
  apply (@augment_recomputes_duals exact 64 4 detour4 [0] detour4_reduced);
    [vm_compute; reflexivity | lia].
Defined.

Lemma augment_nothing_free_witness :
  exists m',
    augment 64 2 pair2 [] pair2_reduced = Done m' /\
    u m' = [Fin 9; Fin 9] /\
    x m' = x pair2_reduced /\ y m' = y pair2_reduced /\
    v m' = v pair2_reduced.
Proof.
  eexists; split; [vm_compute; reflexivity |].
  split; [reflexivity |].
  apply (@augment_nothing_free exact 64 2 pair2 pair2_reduced).
  vm_compute; reflexivity.
Defined.

(** When [augment] returns on a graph whose row [i] lists its columns in
    ascending order, and [x[i]] is the column at position [p] of that row,
    the returned [u[i]] is [c(i, x[i]) - v[x[i]]] as the arithmetic of the
    code computes it: the binary search at line 452 finds position [p]. *)
Theorem augment_slack_equality (F : arith) fuel n (g : graph F) ii
        (m m' : mem F) (i off cnt p : Z) (cz vz : F) :
  augment fuel n g ii m = Done m' ->
  0 <= i < n ->
  rd (idx g) i = Done off -> rd (count g) i = Done cnt ->
  0 <= off -> off + cnt <= len (jj g) -> cnt <= 2 ^ 30 ->
  (Z.to_nat cnt < fuel)%nat ->
  ascending (jj g) off cnt -> 0 <= p < cnt ->
  rd (x m') i = Done (at_ 0 (jj g) (off + p)) ->
  rd (c g) (off + p) = Done cz ->
  rd (v m') (at_ 0 (jj g) (off + p)) = Done vz ->
  rd (u m') i = Done (sub F cz vz).
Proof.
  intros H Hi Hoff Hcnt Hoff0 Hlen Hbig Hfuel Hasc Hp Hx Hc Hv.
  unfold augment in H.
  destruct (n <? 0); [discriminate |].
  apply bind_done in H; destruct H as (s & _ & H).
  apply ag_slack_loop in H; destruct H as (_ & _ & _ & H).
  destruct (H i Hi)
    as (j & off' & cnt' & k & cv & vj & Hx' & Hoff' & Hcnt' & Hb & Hc' & Hv'
        & Hu).
  assert (j = at_ 0 (jj g) (off + p)) by congruence; subst j.
  assert (off' = off) by congruence; subst off'.
  assert (cnt' = cnt) by congruence; subst cnt'.
  unfold bsearch in Hb.
  rewrite (@bsearch_loop_finds (jj g) off cnt p Hoff0 Hlen Hbig Hasc Hp)
    in Hb by lia.
  injection Hb as <-.
  assert (cv = cz) by congruence; subst cv.
  assert (vj = vz) by congruence; subst vj.
  exact Hu.
Qed.

(** [detour4] in binary64, from the state that augmenting row reduction
    leaves: row 2 ends with column 3 and [u[2] = 1 - (-2)]. *)
Lemma augment_slack_equality_witness :
  exists m',
    augment 64 4 detour4_ieee [0]
            {| x := [2; 0; 3; 2]; y := [1; 4; 3; 2];
               u := [0; 0; 0; 0]%float; v := [0; 0; 0; 0]%float |}
    = Done m' /\
    rd (u m') 2 = Done (1 - -2)%float.
Proof.
  eexists; split; [vm_compute; reflexivity |].
  apply (@augment_slack_equality ieee 64 4 detour4_ieee [0]
           {| x := [2; 0; 3; 2]; y := [1; 4; 3; 2];
              u := [0; 0; 0; 0]%float; v := [0; 0; 0; 0]%float |}
           _ 2 5 2 1 1%float (-2)%float).
  - vm_compute; reflexivity.
  - lia.
  - reflexivity.
  - reflexivity.
  - lia.
  - vm_compute; discriminate.
  - vm_compute; discriminate.
  - simpl; lia.
  - intros p q H0 Hpq Hq; assert (p = 0 /\ q = 1) as [-> ->] by lia.
    vm_compute; reflexivity.
  - lia.
  - reflexivity.
  - reflexivity.
  - reflexivity.
Defined.

(** ** The matching that augmenting row reduction keeps *)

Lemma skipn_upd_cons {A : Type} (a : list A) (w : A) :
  forall k, (k < length a)%nat -> skipn k (upd a k w) = w :: skipn (S k) a.
Proof.
  induction a as [| h t IH]; intros k Hk; simpl in Hk; [lia |].
  destruct k as [| k]; [reflexivity |].
  simpl; apply IH; lia.
Qed.

Lemma NoDup_snoc {A : Type} (l : list A) (a : A) :
  NoDup l -> ~ In a l -> NoDup (l ++ [a]).
Proof.
  induction 1 as [| h t Hh Ht IH]; intros Ha; simpl.
  - constructor; [intros [] | constructor].
  - constructor.
    + rewrite in_app_iff; simpl; intros [H | [H | []]]; [tauto |].
      apply Ha; left; congruence.
    + apply IH; intros H; apply Ha; right; exact H.
Qed.

Section Matching.

Variable F : arith.

Section OneAssignment.

Variables (n : Z) (m m' : mem F) (i jc io : Z).

Hypothesis Hxr : 0 <= i < len (x m).
Hypothesis Hyr : 0 <= jc < len (y m).
Hypothesis Hx' : x m' = upd (x m) (Z.to_nat i) jc.
Hypothesis Hy' : y m' = upd (y m) (Z.to_nat jc) i.
Hypothesis Hio : rd (y m) jc = Done io.
Hypothesis Hcons : consistent n m.
Hypothesis Hfree : ownerless m i.

Lemma take_y_same : rd (y m') jc = Done i.
Proof. rewrite Hy'; apply rd_upd_same; exact Hyr. Qed.

Lemma take_y_other j : j <> jc -> rd (y m') j = rd (y m) j.
Proof. intros Hn; rewrite Hy'; apply rd_upd_other; [lia | exact Hn]. Qed.

Lemma take_x_same : rd (x m') i = Done jc.
Proof. rewrite Hx'; apply rd_upd_same; exact Hxr. Qed.

Lemma take_x_other r : r <> i -> rd (x m') r = rd (x m) r.
Proof. intros Hn; rewrite Hx'; apply rd_upd_other; [lia | exact Hn]. Qed.

Lemma take_consistent : consistent n m'.
Proof.
  intros j r Hj Hr.
  destruct (Z.eq_dec j jc) as [-> | Hn].
  - rewrite take_y_same in Hj; injection Hj as <-; apply take_x_same.
  - rewrite take_y_other in Hj by exact Hn.
    rewrite take_x_other; [apply Hcons; assumption |].
    intros ->; exact (Hfree _ Hj).
Qed.

Lemma take_ownerless r : ownerless m r -> r <> i -> ownerless m' r.
Proof.
  intros Hr Hn j Hj.
  destruct (Z.eq_dec j jc) as [-> | Hnj].
  - rewrite take_y_same in Hj; congruence.
  - rewrite take_y_other in Hj by exact Hnj; exact (Hr j Hj).
Qed.

Lemma take_owner_differs : io <> i.
Proof. intros ->; exact (Hfree _ Hio). Qed.

Lemma take_displaced : io <> n -> ownerless m' io.
Proof.
  intros Hn j Hj.
  destruct (Z.eq_dec j jc) as [-> | Hnj].
  - rewrite take_y_same in Hj; injection Hj as E.
    apply take_owner_differs; congruence.
  - rewrite take_y_other in Hj by exact Hnj.
    pose proof (Hcons _ Hj Hn) as E1.
    pose proof (Hcons _ Hio Hn) as E2.
    congruence.
Qed.

Lemma take_assigns : assigned m' i.
Proof. exists jc; split; [apply take_x_same | apply take_y_same]. Qed.

Lemma take_keeps_assigned r : assigned m r -> r <> io -> assigned m' r.
Proof.
  intros (j & Hx & Hy) Hn.
  assert (r <> i) by (intros ->; exact (Hfree _ Hy)).
  assert (j <> jc) by (intros ->; congruence).
  exists j; split.
  - rewrite take_x_other; assumption.
  - rewrite take_y_other; assumption.
Qed.

Lemma take_owner_not_ownerless : ~ ownerless m io.
Proof. intros H; exact (H _ Hio). Qed.

End OneAssignment.

Lemma arr_row_keeps_inv n (g : graph F) ii0 st st' :
  (forall r, In r ii0 -> r <> n) ->
  arr_inv n ii0 st -> arr_row n g st = Done st' -> arr_inv n ii0 st'.
Proof.
  intros Hreal (Hk & Hcons & Hnd & Hown & Hndt & Htk & Htrack) H.
  destruct (arr_row_shape _ _ _ H)
    as (i & n_j & off & s & jc & io & Hi & _ & _ & _ & Hio & Hxr & Hyr
        & Hx' & Hy' & _ & _ & Hq).
  destruct (rd_done 0 _ _ Hi) as (Hkr & Ei).
  unfold len in Hkr.
  assert (Hpend : pending st
                  = i :: skipn (S (Z.to_nat (st_k st))) (st_ii st)).
  { unfold pending; rewrite (skipn_nth_cons 0) by lia.
    unfold at_ in Ei; rewrite Ei; reflexivity. }
  set (rest := skipn (S (Z.to_nat (st_k st))) (st_ii st)) in *.
  rewrite Hpend in Hnd, Hown, Htk, Htrack.
  assert (Hfree : ownerless (st_mem st) i) by (apply Hown; left; reflexivity).
  inversion Hnd as [| ? ? Hirest Hndrest]; subst.
  assert (Hio_rest : ~ In io rest).
  { intros Hin.
    eapply take_owner_not_ownerless; [exact Hio |].
    apply Hown; right; exact Hin. }
  assert (Hio_taken : ~ In io (taken st)).
  { intros Hin; destruct (Htk io Hin) as (_ & Ho & _).
    eapply take_owner_not_ownerless; eassumption. }
  assert (Hcons' : consistent n (st_mem st'))
    by (eapply take_consistent; eassumption).
  assert (Hrest' : forall r, In r rest -> ownerless (st_mem st') r).
  { intros r Hr.
    eapply take_ownerless; [exact Hyr | exact Hy' | |].
    - apply Hown; right; exact Hr.
    - intros ->; exact (Hirest Hr). }
  assert (Htaken' : forall e, In e (taken st) ->
                      e <> n /\ ownerless (st_mem st') e /\ ~ In e rest /\ e <> io).
  { intros e He; destruct (Htk e He) as (Hen & Heo & Hep).
    repeat split; auto.
    - eapply take_ownerless; [exact Hyr | exact Hy' | exact Heo |].
      intros ->; apply Hep; left; reflexivity.
    - intros Hin; apply Hep; right; exact Hin.
    - intros ->; eapply take_owner_not_ownerless; eassumption. }
  assert (Htrack' : forall r, In r ii0 ->
                      In r rest \/ In r (taken st) \/ r = io \/
                      assigned (st_mem st') r).
  { intros r Hr; destruct (Htrack r Hr) as [[<- | Hin] | [Hin | Has]]; auto.
    - right; right; right.
      eapply take_assigns; eassumption.
    - destruct (Z.eq_dec r io) as [-> | Hn]; auto.
      right; right; right.
      eapply take_keeps_assigned; eassumption. }
  destruct Hq as [(Hn & _ & Eii & Ek & Efr & Enf)
                 | [(Hn & _ & Eii & Ek & Hnf & Efr & Enf)
                   | (Hn & Eii & Ek & Efr & Enf)]].
  - (* the owner goes back to the front of the queue *)
    assert (Hp' : pending st' = io :: rest).
    { unfold pending; rewrite Ek, Eii.
      apply skipn_upd_cons; lia. }
    assert (Ht' : taken st' = taken st)
      by (unfold taken; rewrite Efr, Enf; reflexivity).
    assert (Hio' : ownerless (st_mem st') io)
      by (eapply take_displaced; eassumption).
    unfold arr_inv; rewrite Hp', Ht'.
    split; [lia |]; split; [exact Hcons' |].
    split; [constructor; assumption |].
    split; [intros r [<- | Hr]; auto |].
    split; [exact Hndt |].
    split.
    + intros e He; destruct (Htaken' e He) as (? & ? & ? & ?).
      repeat split; auto; intros [E | Hin]; auto.
    + intros r Hr; destruct (Htrack' r Hr) as [Hin | [Hin | [-> | Has]]];
        simpl; auto.
  - (* the owner goes to the free list *)
    assert (Hp' : pending st' = rest).
    { unfold pending; rewrite Ek, Eii.
      replace (Z.to_nat (st_k st + 1)) with (S (Z.to_nat (st_k st))) by lia.
      reflexivity. }
    assert (Ht' : taken st' = taken st ++ [io]).
    { unfold taken; rewrite Efr, Enf.
      replace (Z.to_nat (st_nfree st + 1)) with (S (Z.to_nat (st_nfree st)))
        by lia.
      apply firstn_upd_snoc; unfold len in Hnf; lia. }
    assert (Hio' : ownerless (st_mem st') io)
      by (eapply take_displaced; eassumption).
    unfold arr_inv; rewrite Hp', Ht'.
    split; [lia |]; split; [exact Hcons' |].
    split; [exact Hndrest |].
    split; [exact Hrest' |].
    split; [apply NoDup_snoc; assumption |].
    split.
    + intros e He; rewrite in_app_iff in He; simpl in He.
      destruct He as [He | [<- | []]].
      * destruct (Htaken' e He) as (? & ? & ? & ?); auto.
      * auto.
    + intros r Hr; rewrite in_app_iff; simpl.
      destruct (Htrack' r Hr) as [Hin | [Hin | [-> | Has]]]; auto.
  - (* the column was unassigned *)
    assert (Hp' : pending st' = rest).
    { unfold pending; rewrite Ek, Eii.
      replace (Z.to_nat (st_k st + 1)) with (S (Z.to_nat (st_k st))) by lia.
      reflexivity. }
    assert (Ht' : taken st' = taken st)
      by (unfold taken; rewrite Efr, Enf; reflexivity).
    unfold arr_inv; rewrite Hp', Ht'.
    split; [lia |]; split; [exact Hcons' |].
    split; [exact Hndrest |].
    split; [exact Hrest' |].
    split; [exact Hndt |].
    split.
    + intros e He; destruct (Htaken' e He) as (? & ? & ? & ?); auto.
    + intros r Hr; destruct (Htrack' r Hr) as [Hin | [Hin | [-> | Has]]]; auto.
      exfalso; exact (Hreal _ Hr Hn).
Qed.

Lemma while_exit {S : Type} (P Q : S -> Prop) (b : S -> outcome (ctl S)) :
  (forall s r, P s -> b s = Done r ->
               match r with Next s1 => P s1 | Break s1 => Q s1 end) ->
  forall fuel s s', P s -> while fuel b s = Done s' -> Q s'.
Proof.
  intros Hb; induction fuel as [| fuel IH]; intros s s' Hs H; simpl in H.
  - discriminate.
  - apply bind_done in H; destruct H as (r & Hr & H).
    pose proof (Hb _ _ Hs Hr) as Hn.
    destruct r as [s1 | s1].
    + eapply IH; eassumption.
    + injection H as <-; exact Hn.
Qed.

(** [augmenting_row_reduction] keeps a partial matching: when every owner
    recorded in [y] has its column in [x] and the rows given are distinct
    and own no column, then on return the same holds of [x] and [y], the
    free list has no repetition and holds only rows that own no column, and
    every row given is either in the free list or assigned. *)
Theorem arr_matching_contract fuel n (g : graph F) ii m m' ii' fr :
  consistent n m -> NoDup ii ->
  (forall r, In r ii -> r <> n /\ ownerless m r) ->
  augmenting_row_reduction fuel n g ii m = Done (m', ii', fr) ->
  consistent n m' /\ NoDup fr /\
  (forall e, In e fr -> e <> n /\ ownerless m' e) /\
  (forall r, In r ii -> In r fr \/ assigned m' r).
Proof.
  intros Hcons Hnd Hrows H.
  unfold augmenting_row_reduction in H.
  apply bind_done in H; destruct H as (st0 & E0 & H).
  apply bind_done in H; destruct H as (st & Ew & H).
  injection H as <- <- <-.
  unfold arr_init in E0.
  apply bind_done in E0; destruct E0 as (top & _ & E0).
  injection E0 as <-.
  apply (while_exit (arr_inv n ii)
                    (fun s => arr_inv n ii s /\ pending s = [])) in Ew.
  - destruct Ew as ((_ & Hc & _ & _ & Hndt & Htk & Htrack) & Hp).
    fold (taken st).
    rewrite Hp in Htrack.
    split; [exact Hc |]; split; [exact Hndt |]; split.
    + intros e He; destruct (Htk e He) as (? & ? & _); auto.
    + intros r Hr; destruct (Htrack r Hr) as [[] | Hd]; exact Hd.
  - intros s r Hs Hr; unfold arr_body in Hr.
    destruct (Z.ltb_spec (st_k s) (len (st_ii s))) as [Hlt | Hge].
    + apply bind_done in Hr; destruct Hr as (s1 & Hrow & Hr).
      injection Hr as <-.
      eapply arr_row_keeps_inv; [| exact Hs | exact Hrow].
      intros r0 Hr0; apply Hrows; exact Hr0.
    + injection Hr as <-; split; [exact Hs |].
      unfold pending; apply skipn_all2.
      destruct Hs as (Hk & _); unfold len in Hge; lia.
  - unfold arr_inv, pending, taken; simpl.
    split; [lia |]; split; [exact Hcons |]; split; [exact Hnd |].
    split; [intros r Hr; apply Hrows; exact Hr |].
    split; [constructor |].
    split; [intros e [] |].
    intros r Hr; left; exact Hr.
Qed.

End Matching.

Lemma arr_matching_contract_witness :
  consistent 4 {| x := [2; 0; 3; 2]; y := [1; 4; 3; 2];
                  u := [Fin 0; Fin 0; Fin 0; Fin 0];
                  v := [Fin 0; Fin 0; Fin 0; Fin 0] |} /\
  NoDup [0] /\
  (forall e, In e [0] ->
     e <> 4 /\
     ownerless {| x := [2; 0; 3; 2]; y := [1; 4; 3; 2];
                  u := [Fin 0; Fin 0; Fin 0; Fin 0];
                  v := [Fin 0; Fin 0; Fin 0; Fin 0] |} e) /\
  (forall r, In r (rows 4) ->
     In r [0] \/
     assigned {| x := [2; 0; 3; 2]; y := [1; 4; 3; 2];
                 u := [Fin 0; Fin 0; Fin 0; Fin 0];
                 v := [Fin 0; Fin 0; Fin 0; Fin 0] |} r).
Proof.
  apply (@arr_matching_contract exact 64 4 detour4 (rows 4) (initial exact 4)
           {| x := [2; 0; 3; 2]; y := [1; 4; 3; 2];
              u := [Fin 0; Fin 0; Fin 0; Fin 0];
              v := [Fin 0; Fin 0; Fin 0; Fin 0] |} [0; 1; 2; 3] [0]).
  - intros j r H Hn.
    apply (rd_done 0) in H; destruct H as (Hr & E).
    unfold len in Hr; simpl in Hr.
    assert (Hc : j = 0 \/ j = 1 \/ j = 2 \/ j = 3) by lia.
    destruct Hc as [-> | [-> | [-> | ->]]]; vm_compute in E; congruence.
  - repeat constructor; simpl; intuition discriminate.
  - intros r Hr; simpl in Hr; split.
    + intuition (subst; discriminate).
    + intros j H.
      apply (rd_done 0) in H; destruct H as (Hj & E).
      unfold len in Hj; simpl in Hj.
      assert (Hc : j = 0 \/ j = 1 \/ j = 2 \/ j = 3) by lia.
      destruct Hc as [-> | [-> | [-> | ->]]]; vm_compute in E;
        intuition (subst; discriminate).
  - vm_compute; reflexivity.
Defined.

(** ** Rows with one column or none in augmenting row reduction *)



Section EmptyRow.

Variable F : arith.

(** A row with no column, in one pass of the loop of
    [augmenting_row_reduction] entered with [a] in [j1] and [b] in [j2]
    (from the previous pass, or from the stack on the first pass): the
    scan at lines 215-225 does not run, [u1 = u2 = +inf], and the row is
    given column [a] when nobody owns it, and column [b] otherwise, whose
    owner then goes to the free list; no price changes. *)
Theorem arr_row_no_column (n : Z) (g : graph F) (st : arr_state F)
        (i cnt off a b : Z) :
  let m := st_mem st in
  let i1 := at_ 0 (y m) a in
  let i2 := at_ 0 (y m) b in
  rd (st_ii st) (st_k st) = Done i ->
  rd (count g) i = Done cnt -> cnt <= 0 ->
  rd (idx g) i = Done off ->
  st_j1 st = Some a -> st_j2 st = Some b ->
  ltb F (inf F) (inf F) = false ->
  0 <= a < len (y m) -> 0 <= b < len (y m) ->
  0 <= i < len (x m) ->
  0 <= st_nfree st < len (st_free st) ->
  exists st',
    arr_row n g st = Done st' /\
    u (st_mem st') = u m /\ v (st_mem st') = v m /\
    st_k st' = st_k st + 1 /\ st_ii st' = st_ii st /\
    (i1 = n ->
     x (st_mem st') = upd (x m) (Z.to_nat i) a /\
     y (st_mem st') = upd (y m) (Z.to_nat a) i /\
     taken st' = taken st) /\
    (i1 <> n ->
     x (st_mem st') = upd (x m) (Z.to_nat i) b /\
     y (st_mem st') = upd (y m) (Z.to_nat b) i /\
     (i2 = n -> taken st' = taken st) /\
     (i2 <> n -> taken st' = taken st ++ [i2])).
Proof.
  intros m i1 i2 Hrow Hcnt Hle Hoff Ea Eb Hinf Ha Hb Hx Hfree.
  unfold arr_row; fold m.
  rewrite Hrow; cbn [bind].
  rewrite Hcnt; cbn [bind].
  rewrite Hoff; cbn [bind].
  unfold for_range, for_break.
  replace (Z.to_nat (cnt - 0)) with O by lia.
  cbn [for_from bind ctl_state sc_u1 sc_u2 sc_j1 sc_j2].
  rewrite Ea, Eb; cbn [use bind].
  rewrite (rd_in_range 0 (y m)) by exact Ha; cbn [bind]; fold i1.
  rewrite Hinf.
  destruct (Z.eq_dec i1 n) as [E1 | N1].
  - pose proof (proj2 (Z.eqb_eq i1 n) E1) as B1.
    rewrite B1; cbn [negb bind]; rewrite B1; cbn [negb bind].
    rewrite wr_in_range by exact Hx; cbn [bind].
    rewrite wr_in_range by exact Ha; cbn [bind].
    eexists; split; [reflexivity |]; cbn.
    repeat split; try reflexivity; intros; congruence.
  - pose proof (proj2 (Z.eqb_neq i1 n) N1) as B1.
    rewrite B1; cbn [negb bind use].
    rewrite (rd_in_range 0 (y m)) by exact Hb; cbn [bind]; fold i2.
    destruct (Z.eqb_spec i2 n) as [E2 | N2]; cbn [negb bind].
    + rewrite wr_in_range by exact Hx; cbn [bind].
      rewrite wr_in_range by exact Hb; cbn [bind].
      eexists; split; [reflexivity |]; cbn.
      repeat split; try reflexivity; intros; congruence.
    + rewrite wr_in_range by exact Hfree; cbn [bind].
      rewrite wr_in_range by exact Hx; cbn [bind].
      rewrite wr_in_range by exact Hb; cbn [bind].
      eexists; split; [reflexivity |]; cbn.
      repeat split; try reflexivity; try (intros; congruence).
      intros _; unfold taken; cbn.
      replace (Z.to_nat (st_nfree st + 1)) with (S (Z.to_nat (st_nfree st)))
        by lia.
      apply firstn_upd_snoc; unfold len in Hfree; lia.
Qed.

End EmptyRow.

(** Row 0 of [gap2] on the first pass, the two locals holding 1 on entry:
    the row is given column 1. *)
Lemma arr_row_no_column_witness :
  exists st',
    arr_row 2 gap2
            {| st_mem := initial ieee 2; st_ii := [0; 1];
               st_free := [0; 0; 0]; st_nfree := 0; st_k := 0;
               st_j1 := Some 1; st_j2 := Some 1 |} = Done st' /\
    x (st_mem st') = [1; 2] /\ y (st_mem st') = [2; 0] /\ taken st' = [].
Proof.
  destruct (@arr_row_no_column ieee 2 gap2
              {| st_mem := initial ieee 2; st_ii := [0; 1];
                 st_free := [0; 0; 0]; st_nfree := 0; st_k := 0;
                 st_j1 := Some 1; st_j2 := Some 1 |}
              0 0 0 1 1)
    as (st' & E & _ & _ & _ & _ & Hfree & _);
    try reflexivity; try lia;
    try (vm_compute; split; [discriminate | reflexivity]).
  destruct Hfree as (Hx & Hy & Ht); [reflexivity |].
  exists st'; repeat split; assumption.
Defined.

(** ** The search loop of augment *)

Lemma for_from_exit {S : Type} (P Q : S -> Prop)
      (body : Z -> S -> outcome (ctl S)) :
  (forall j s r, P s -> body j s = Done r ->
                 match r with Next s1 => P s1 | Break s1 => Q s1 end) ->
  forall cnt j s r,
    P s -> for_from cnt j body s = Done r ->
    match r with Next s1 => P s1 | Break s1 => Q s1 end.
Proof.
  intros Hbody; induction cnt as [| cnt IH]; intros j s r HP H; simpl in H.
  - injection H as <-; exact HP.
  - apply bind_done in H; destruct H as (r1 & E1 & H).
    pose proof (Hbody _ _ _ HP E1) as Hn.
    destruct r1 as [s1 | s1].
    + eapply IH; eassumption.
    + injection H as <-; exact Hn.
Qed.

Lemma for_range_keeps {S : Type} (P : S -> Prop)
      (body : Z -> S -> outcome S) (lo hi : Z) (s s' : S) :
  (forall j s s', P s -> body j s = Done s' -> P s') ->
  P s -> for_range lo hi body s = Done s' -> P s'.
Proof.
  intros Hbody HP H; unfold for_range, for_break in H.
  apply bind_done in H; destruct H as (r & E & H).
  injection H as <-.
  assert (Hr : match r with Next s1 => P s1 | Break s1 => P s1 end).
  { eapply (@for_from_exit S P P); [| exact HP | exact E].
    intros j s0 r0 H0 Hb.
    apply bind_done in Hb; destruct Hb as (s1 & Hb & Hd).
    injection Hd as <-; eauto. }
  destruct r; exact Hr.
Qed.

Section Search.

Variable F : arith.

Lemma ag_min_mem (g : graph F) i off jjj (s s' : aug_state F) :
  ag_min g i off jjj s = Done s' -> ag_mem s' = ag_mem s.
Proof.
  unfold ag_min; intros H.
  apply bind_done in H; destruct H as (j & _ & H).
  apply bind_done in H; destruct H as (dn & _ & H).
  destruct (dn =? i); [injection H as <-; reflexivity |].
  apply bind_done in H; destruct H as (temp & _ & H).
  destruct (leb F temp (ag_umin s)); [| injection H as <-; reflexivity].
  apply bind_done in H; destruct H as (col' & _ & H).
  injection H as <-.
  destruct (ltb F temp (ag_umin s)); reflexivity.
Qed.

Lemma ag_check_exit n i jjj m (s : aug_state F) r :
  searching n m s -> ag_check n i jjj s = Done r ->
  match r with Next s1 => searching n m s1 | Break s1 => found n m s1 end.
Proof.
  intros [Hm Hj] H; unfold ag_check in H.
  apply bind_done in H; destruct H as (j & _ & H).
  apply bind_done in H; destruct H as (yj & Hy & H).
  destruct (Z.eqb_spec yj n) as [-> | _].
  - injection H as <-; split; [exact Hm |].
    simpl; rewrite <- Hm; exact Hy.
  - apply bind_done in H; destruct H as (done' & _ & H).
    injection H as <-; split; assumption.
Qed.

Lemma ag_relax_exit n (g : graph F) i i1 off2 u1 jjj m (s : aug_state F) r :
  searching n m s -> ag_relax n g i i1 off2 u1 jjj s = Done r ->
  match r with Next s1 => searching n m s1 | Break s1 => found n m s1 end.
Proof.
  intros [Hm Hj] H; unfold ag_relax in H.
  apply bind_done in H; destruct H as (j & _ & H).
  apply bind_done in H; destruct H as (dn & _ & H).
  destruct (negb (dn =? i)); [| injection H as <-; split; assumption].
  apply bind_done in H; destruct H as (cv & _ & H).
  apply bind_done in H; destruct H as (vj & _ & H).
  apply bind_done in H; destruct H as (dj & _ & H).
  destruct (ltb F _ dj); [| injection H as <-; split; assumption].
  apply bind_done in H; destruct H as (pred' & _ & H).
  destruct (eqb F _ _).
  - apply bind_done in H; destruct H as (yj & Hy & H).
    destruct (Z.eqb_spec yj n) as [-> | _].
    + injection H as <-; split; [exact Hm |].
      simpl in *; rewrite <- Hm; exact Hy.
    + apply bind_done in H; destruct H as (col' & _ & H).
      apply bind_done in H; destruct H as (done' & _ & H).
      apply bind_done in H; destruct H as (d' & _ & H).
      injection H as <-; split; assumption.
  - apply bind_done in H; destruct H as (d' & _ & H).
    injection H as <-; split; assumption.
Qed.

Lemma ag_search_exit fuel n (g : graph F) i off n_j m (s : aug_state F) r :
  ag_mem s = m -> ag_search fuel n g i off n_j s = Done r ->
  match r with Next s1 => ag_mem s1 = m | Break s1 => found n m s1 end.
Proof.
  intros Hm H; unfold ag_search in H.
  apply bind_done in H; destruct H as (r1 & H1 & H).
  assert (Hr1 : match r1 with
                | Next s1 => ag_mem s1 = m
                | Break s1 => found n m s1
                end).
  { destruct (ag_up s =? ag_low s).
    - apply bind_done in H1; destruct H1 as (s2 & Hmin & H1).
      apply bind_done in H1; destruct H1 as (r2 & Hchk & H1).
      assert (Hm2 : ag_mem s2 = m).
      { eapply (@for_range_keeps _ (fun t => ag_mem t = m));
          [| | exact Hmin]; [| exact Hm].
        intros j t t' Ht Hb; rewrite (ag_min_mem _ _ _ _ _ Hb); exact Ht. }
      assert (Hr2 : match r2 with
                    | Next s1 => searching n m s1
                    | Break s1 => found n m s1
                    end).
      { eapply (@for_from_exit _ (searching n m) (found n m));
          [| | exact Hchk].
        - intros j t r0; apply ag_check_exit.
        - split; [exact Hm2 | reflexivity]. }
      destruct r2 as [s4 | s4]; simpl in H1;
        destruct (ag_j1 s4 <? n) eqn:E; injection H1 as <-.
      + destruct Hr2 as [_ Hj]; lia.
      + apply Hr2.
      + exact Hr2.
      + apply Hr2.
    - injection H1 as <-; exact Hm. }
  destruct r1 as [s1 | s1]; [| injection H as <-; exact Hr1].
  apply bind_done in H; destruct H as (j1 & _ & H).
  apply bind_done in H; destruct H as (i1 & _ & H).
  apply bind_done in H; destruct H as (off2 & _ & H).
  apply bind_done in H; destruct H as (n_j2 & _ & H).
  apply bind_done in H; destruct H as (jidx & _ & H).
  apply bind_done in H; destruct H as (cv & _ & H).
  apply bind_done in H; destruct H as (vj & _ & H).
  apply bind_done in H; destruct H as (r3 & Hrel & H).
  assert (Hr3 : match r3 with
                | Next s1 => searching n m s1
                | Break s1 => found n m s1
                end).
  { eapply (@for_from_exit _ (searching n m) (found n m));
      [| | exact Hrel].
    - intros j t r0; apply ag_relax_exit.
    - split; [exact Hr1 | reflexivity]. }
  destruct r3 as [s5 | s5]; simpl in H;
    destruct (Z.eqb_spec (ag_j1 s5) n) as [E | E]; simpl in H;
    injection H as <-.
  - apply Hr3.
  - destruct Hr3 as [_ Hj]; contradiction.
  - apply Hr3.
  - exact Hr3.
Qed.

(** When the search loop of [augment] (lines 369-433) ends, [j1] is a
    column that no row owns ([y[j1] = n]) and [x], [y], [u], [v] are as they
    were when the loop began. *)
Theorem ag_search_finds_free_column fuel fuel' n (g : graph F) i off n_j
        (s s' : aug_state F) :
  while fuel' (ag_search fuel n g i off n_j) s = Done s' ->
  ag_mem s' = ag_mem s /\ rd (y (ag_mem s)) (ag_j1 s') = Done n.
Proof.
  intros H.
  apply (@while_exit _ (fun t => ag_mem t = ag_mem s) (found n (ag_mem s))
           (ag_search fuel n g i off n_j)) with (fuel := fuel') (s := s);
    [| reflexivity | exact H].
  intros t r Ht Hr; eapply ag_search_exit; eassumption.
Qed.

End Search.

Lemma ag_search_finds_free_column_witness :
  exists s',
    while 64 (ag_search 64 4 detour4 0 0 3) detour4_search = Done s' /\
    ag_j1 s' = 1 /\
    ag_mem s' = ag_mem detour4_search /\
    rd (y (ag_mem detour4_search)) (ag_j1 s') = Done 4.
Proof.
  eexists; split; [vm_compute; reflexivity |].
  split; [reflexivity |].
  apply (@ag_search_finds_free_column exact 64 64 4 detour4 0 0 3).
  vm_compute; reflexivity.
Defined.
